(** * WinMine: the Win16/Win32 portability header [port1632.h]

    The header is preprocessor code plus one inline function.  The
    development has two layers:

    - the translation-time layer: preprocessing tokens, the macro table,
      conditional inclusion and macro replacement, with the header
      transcribed line by line as a list of directives;
    - the run-time layer: the value computed by the [max]/[min] macro
      bodies, the byte memory on which [hmemcpy]/[hmemset] act, and the
      drawing state on which [MMoveTo] acts.  *)

From stdpp Require Import gmap strings list fin_maps.
From Stdlib Require Import ZArith Lia.

Set Warnings "-register-all".
Local Open Scope string_scope.

(** ** Preprocessing tokens *)

Inductive punct :=
  | LParen | RParen | LBrace | RBrace
  | Comma | Semi | Quest | Colon | Less | Greater | Amp
  | OtherP (sym : string).

Inductive token :=
  | Id (name : string)       (* identifier or keyword *)
  | Num (value : Z)          (* integer constant *)
  | Str (text : string)      (* string literal *)
  | Punct (p : punct).

#[global] Instance punct_eq_dec : EqDecision punct.
Proof. solve_decision. Defined.

#[global] Instance token_eq_dec : EqDecision token.
Proof. solve_decision. Defined.

(** ** Macros and the macro table *)

Inductive macro :=
  | ObjLike (body : list token)
  | FunLike (params : list string) (body : list token).

#[global] Instance macro_eq_dec : EqDecision macro.
Proof. solve_decision. Defined.

(** ** Macro replacement

    Replacement follows the usual hide-set formulation of the rescanning
    rule: every token carries the names of the macros whose replacement
    produced it, and an identifier is not replaced again by a macro in its
    own hide set. *)

Definition htoken : Type := token * list string.

Definition fresh_tokens (ts : list token) : list htoken :=
  map (λ t, (t, [])) ts.

Definition hsadd (hs : list string) (ts : list htoken) : list htoken :=
  map (λ th : htoken, (th.1, (hs ++ th.2)%list)) ts.

Definition hsinter (hs1 hs2 : list string) : list string :=
  filter (λ n, n ∈ hs2) hs1.

(** The arguments of a function-like macro invocation: the tokens after the
    opening parenthesis up to the matching closing one, split at the commas
    that are not inside nested parentheses.  Returns the arguments, the hide
    set of the closing parenthesis and the tokens that follow it. *)
Fixpoint collect_args (depth : nat) (cur : list htoken) (acc : list (list htoken))
    (ts : list htoken) : option (list (list htoken) * list string * list htoken) :=
  match ts with
  | [] => None
  | (Punct RParen, hs) :: rest =>
      match depth with
      | O => Some (reverse (reverse cur :: acc), hs, rest)
      | S d => collect_args d ((Punct RParen, hs) :: cur) acc rest
      end
  | (Punct LParen, hs) :: rest =>
      collect_args (S depth) ((Punct LParen, hs) :: cur) acc rest
  | (Punct Comma, hs) :: rest =>
      match depth with
      | O => collect_args O [] (reverse cur :: acc) rest
      | S _ => collect_args depth ((Punct Comma, hs) :: cur) acc rest
      end
  | t :: rest => collect_args depth (t :: cur) acc rest
  end.

(** The argument bound to parameter [n], if [n] is a parameter. *)
Fixpoint actual_of (n : string) (params : list string) (args : list (list htoken))
    : option (list htoken) :=
  match params, args with
  | p :: ps, a :: args' => if decide (p = n) then Some a else actual_of n ps args'
  | _, _ => None
  end.

(** The replacement list with each parameter replaced by its argument. *)
Definition subst (params : list string) (args : list (list htoken))
    (body : list token) : list htoken :=
  concat (map (λ t,
    match t with
    | Id n => match actual_of n params args with
              | Some a => a
              | None => [(t, [])]
              end
    | _ => [(t, [])]
    end) body).

(** An invocation [f()] of a macro without parameters has no argument. *)
Definition normalise_args (params : list string) (args : list (list htoken))
    : list (list htoken) :=
  match params, args with
  | [], [[]] => []
  | _, _ => args
  end.

Section Replacement.
Variable env : gmap string macro.

Fixpoint expand (fuel : nat) (ts : list htoken) : option (list htoken) :=
  match fuel with
  | O => None
  | S fuel' =>
      match ts with
      | [] => Some []
      | (Id n, hs) :: rest =>
          if bool_decide (n ∈ hs) then cons (Id n, hs) <$> expand fuel' rest
          else
            match env !! n with
            | None => cons (Id n, hs) <$> expand fuel' rest
            | Some (ObjLike body) =>
                expand fuel' (hsadd (n :: hs) (fresh_tokens body) ++ rest)
            | Some (FunLike params body) =>
                match rest with
                | (Punct LParen, _) :: rest' =>
                    '(args, hs', rest'') ← collect_args O [] [] rest';
                    let args := normalise_args params args in
                    if bool_decide (length args = length params) then
                      args' ← mapM (expand fuel') args;
                      expand fuel'
                        (hsadd (n :: hsinter hs hs') (subst params args' body) ++ rest'')
                    else None
                | _ => cons (Id n, hs) <$> expand fuel' rest
                end
            end
      | t :: rest => cons t <$> expand fuel' rest
      end
  end.

(** Macro replacement of a piece of program text. *)
Definition expand_tokens (fuel : nat) (ts : list token) : option (list token) :=
  map fst <$> expand fuel (fresh_tokens ts).
End Replacement.

(** ** Lines of a header *)

Inductive line :=
  | PragmaOnce
  | Include (header : string)
  | Define (name : string) (m : macro)
  | IfDef (name : string) (body : list line)
  | IfNDef (name : string) (body : list line)
  | Text (toks : list token)
  | FunDef (toks : list token).

Inductive diag :=
  | MacroRedefined (name : string)
  | FunctionRedefined (name : string)
  | ReplacementFailed.

(** State of the translation of one translation unit. *)
Record pstate := PState {
  defs : gmap string macro;     (* macro table *)
  once : gset string;           (* files that asked to be read once *)
  funs : gset string;           (* functions defined so far *)
  text : list token;            (* program text emitted so far *)
  diags : list diag             (* diagnostics issued so far *)
}.

Definition with_defs (d : gmap string macro) (st : pstate) : pstate :=
  PState d (once st) (funs st) (text st) (diags st).

Definition with_diag (e : diag) (st : pstate) : pstate :=
  PState (defs st) (once st) (funs st) (text st) (diags st ++ [e]).

Definition mark_once (file : string) (st : pstate) : pstate :=
  PState (defs st) ({[file]} ∪ once st) (funs st) (text st) (diags st).

Definition emit (toks : list token) (st : pstate) : pstate :=
  PState (defs st) (once st) (funs st) (text st ++ toks) (diags st).

Definition defined (name : string) (st : pstate) : bool :=
  bool_decide (is_Some (defs st !! name)).

(** [#define]: a new name is entered in the table; repeating the same
    definition is allowed; a different one is diagnosed and replaces the
    old one. *)
Definition define (name : string) (m : macro) (st : pstate) : pstate :=
  match defs st !! name with
  | None => with_defs (<[name := m]> (defs st)) st
  | Some m' =>
      if decide (m' = m) then st
      else with_diag (MacroRedefined name) (with_defs (<[name := m]> (defs st)) st)
  end.

(** The function that the text of a function definition defines: the
    identifier in front of the first opening parenthesis. *)
Fixpoint declared_name (ts : list token) : option string :=
  match ts with
  | Id n :: ((Punct LParen :: _) as rest) => Some n
  | _ :: rest => declared_name rest
  | [] => None
  end.

(** A function definition in the program text, after macro replacement.
    In a C translation unit a second definition of the same function is an
    error.  In a C++ translation unit, where [__cplusplus] is defined, a
    function of the same name may be an overload, and nothing is diagnosed
    here. *)
Definition define_function (toks : list token) (st : pstate) : pstate :=
  let st' := emit toks st in
  match declared_name toks with
  | None => st'
  | Some name =>
      if bool_decide (name ∈ funs st) then
        if defined "__cplusplus" st then st'
        else with_diag (FunctionRedefined name) st'
      else PState (defs st') (once st') ({[name]} ∪ funs st') (text st') (diags st')
  end.

(** Program text passes through macro replacement with the table in force
    before [on_text] takes it; text whose replacement fails (an invocation
    with the wrong number of arguments, or one that is not closed) is
    diagnosed and dropped. *)
Definition replaced (budget : nat) (on_text : list token → pstate → pstate)
    (toks : list token) (st : pstate) : pstate :=
  match expand_tokens (defs st) budget toks with
  | Some ts => on_text ts st
  | None => with_diag ReplacementFailed st
  end.

Section Translation.
(** The host: what reading a system header does to the translation state,
    and whether the compiler honours [#pragma once]. *)
Variable sys_header : string → pstate → pstate.
Variable honours_once : bool.
(** The fuel the translation gives to the macro replacement of one line. *)
Variable budget : nat.

Fixpoint process_line (file : string) (l : line) (st : pstate) : pstate :=
  let process_body :=
    fix go (ls : list line) (st : pstate) : pstate :=
      match ls with
      | [] => st
      | l' :: ls' => go ls' (process_line file l' st)
      end in
  match l with
  | PragmaOnce => if honours_once then mark_once file st else st
  | Include h => sys_header h st
  | Define n m => define n m st
  | IfDef n body => if defined n st then process_body body st else st
  | IfNDef n body => if defined n st then st else process_body body st
  | Text toks => replaced budget emit toks st
  | FunDef toks => replaced budget define_function toks st
  end.

Fixpoint process_lines (file : string) (ls : list line) (st : pstate) : pstate :=
  match ls with
  | [] => st
  | l :: ls' => process_lines file ls' (process_line file l st)
  end.

(** [#include "file"] of a header of the project. *)
Definition include (file : string) (content : list line) (st : pstate) : pstate :=
  if honours_once && bool_decide (file ∈ once st) then st
  else process_lines file content st.
End Translation.


(** ** The header, line by line *)

(** [#define MMain(hInstance, hPrevInstance, lpCmdLine, nCmdShow)
       int APIENTRY WinMain(HINSTANCE hInstance, HINSTANCE hPrevInstance,
                            LPSTR lpCmdLine, int nCmdShow) {] *)
Definition MMain_macro : macro :=
  FunLike ["hInstance"; "hPrevInstance"; "lpCmdLine"; "nCmdShow"]
    [Id "int"; Id "APIENTRY"; Id "WinMain"; Punct LParen;
     Id "HINSTANCE"; Id "hInstance"; Punct Comma;
     Id "HINSTANCE"; Id "hPrevInstance"; Punct Comma;
     Id "LPSTR"; Id "lpCmdLine"; Punct Comma;
     Id "int"; Id "nCmdShow"; Punct RParen;
     Punct LBrace].

(** [#define hmemcpy memcpy] and [#define hmemset memset] *)
Definition hmemcpy_macro : macro := ObjLike [Id "memcpy"].
Definition hmemset_macro : macro := ObjLike [Id "memset"].

(** [#define EXPENTRY WINAPI] and [#define WINAPI16 CALLBACK] *)
Definition EXPENTRY_macro : macro := ObjLike [Id "WINAPI"].
Definition WINAPI16_macro : macro := ObjLike [Id "CALLBACK"].

(** [#define max(a,b) (((a) > (b)) ? (a) : (b))] *)
Definition max_macro : macro :=
  FunLike ["a"; "b"]
    [Punct LParen; Punct LParen; Punct LParen; Id "a"; Punct RParen;
     Punct Greater; Punct LParen; Id "b"; Punct RParen; Punct RParen;
     Punct Quest; Punct LParen; Id "a"; Punct RParen;
     Punct Colon; Punct LParen; Id "b"; Punct RParen; Punct RParen].

(** [#define min(a,b) (((a) < (b)) ? (a) : (b))] *)
Definition min_macro : macro :=
  FunLike ["a"; "b"]
    [Punct LParen; Punct LParen; Punct LParen; Id "a"; Punct RParen;
     Punct Less; Punct LParen; Id "b"; Punct RParen; Punct RParen;
     Punct Quest; Punct LParen; Id "a"; Punct RParen;
     Punct Colon; Punct LParen; Id "b"; Punct RParen; Punct RParen].

(** [__inline int MMoveTo(HDC hdc, int x, int y)
     { POINT pt; return MoveToEx(hdc, x, y, &pt); }] *)
Definition MMoveTo_text : list token :=
  [Id "__inline"; Id "int"; Id "MMoveTo"; Punct LParen;
   Id "HDC"; Id "hdc"; Punct Comma; Id "int"; Id "x"; Punct Comma;
   Id "int"; Id "y"; Punct RParen;
   Punct LBrace;
   Id "POINT"; Id "pt"; Punct Semi;
   Id "return"; Id "MoveToEx"; Punct LParen;
   Id "hdc"; Punct Comma; Id "x"; Punct Comma; Id "y"; Punct Comma;
   Punct Amp; Id "pt"; Punct RParen; Punct Semi;
   Punct RBrace].

Definition guard_name : string := "PORT1632_STUB_H".
Definition file_name : string := "port1632.h".

(** The seven guarded bindings, lines 18 to 52. *)
Definition bindings : list line :=
  [ IfNDef "MMain" [Define "MMain" MMain_macro];
    IfNDef "hmemcpy" [Define "hmemcpy" hmemcpy_macro];
    IfNDef "hmemset" [Define "hmemset" hmemset_macro];
    IfNDef "EXPENTRY" [Define "EXPENTRY" EXPENTRY_macro];
    IfNDef "WINAPI16" [Define "WINAPI16" WINAPI16_macro];
    IfNDef "max" [Define "max" max_macro];
    IfNDef "min" [Define "min" min_macro] ].

(** What lies between [#ifndef PORT1632_STUB_H] and its [#endif]. *)
Definition guarded_part : list line :=
  [ Define guard_name (ObjLike []);
    Include "windows.h";
    Include "string.h";
    IfDef "__cplusplus" [Text [Id "extern"; Str "C"; Punct LBrace]] ]
  ++ bindings ++
  [ FunDef MMoveTo_text;
    IfDef "__cplusplus" [Text [Punct RBrace]] ].

Definition port1632_h : list line :=
  [ PragmaOnce; IfNDef guard_name guarded_part ].

(** The names the header binds, with the definition it gives each. *)
Definition shim_macros : gmap string macro :=
  list_to_map
    [ ("MMain", MMain_macro); ("hmemcpy", hmemcpy_macro); ("hmemset", hmemset_macro);
      ("EXPENTRY", EXPENTRY_macro); ("WINAPI16", WINAPI16_macro);
      ("max", max_macro); ("min", min_macro) ].

Definition shim_names : list string :=
  ["MMain"; "hmemcpy"; "hmemset"; "EXPENTRY"; "WINAPI16"; "max"; "min"].

(** [#include "port1632.h"] *)
Definition include_shim (sys_header : string → pstate → pstate) (honours_once : bool)
    (budget : nat) (st : pstate) : pstate :=
  include sys_header honours_once budget file_name port1632_h st.

(** ** A host for the examples

    The calling-convention macros of the 32-bit Windows SDK, which
    [<windows.h>] brings in, and its own [max]/[min]; [<string.h>] declares
    functions only and leaves the macro table alone. *)
Definition windows_h : list line :=
  [ Define "CALLBACK" (ObjLike [Id "__stdcall"]);
    Define "WINAPI" (ObjLike [Id "__stdcall"]);
    Define "APIENTRY" (ObjLike [Id "WINAPI"]);
    IfNDef "max" [Define "max" max_macro];
    IfNDef "min" [Define "min" min_macro] ].

Definition win32_header (h : string) (st : pstate) : pstate :=
  if decide (h = "windows.h")
  then process_lines (λ _ st', st') true 0 h windows_h st
  else st.

Definition empty_state : pstate := PState ∅ ∅ ∅ [] [].

(** The macro table of a translation unit that starts with
    [#include "port1632.h"] on the 32-bit Windows SDK. *)
Definition win32_env : gmap string macro :=
  defs (include_shim win32_header true 64 empty_state).

(** A translation unit in which [EXPENTRY] was defined before the header is
    read. *)
Definition expentry_first : pstate :=
  define "EXPENTRY" (ObjLike [Id "__export"]) empty_state.

(** A host that is asked, with [NOMINMAX], not to define [max] and [min]:
    the two macros in force are then those of lines 46 to 52. *)
Definition nominmax_header (h : string) (st : pstate) : pstate :=
  if decide (h = "windows.h")
  then process_lines (λ _ st', st') true 0 h
         [ Define "CALLBACK" (ObjLike [Id "__stdcall"]);
           Define "WINAPI" (ObjLike [Id "__stdcall"]);
           Define "APIENTRY" (ObjLike [Id "WINAPI"]) ] st
  else st.

Definition nominmax_env : gmap string macro :=
  defs (include_shim nominmax_header true 64 empty_state).

(** The replacement list of a macro for given arguments, before it is
    scanned again. *)
Definition instantiate (m : macro) (args : list (list token)) : list token :=
  match m with
  | ObjLike body => body
  | FunLike params body => map fst (subst params (fresh_tokens <$> args) body)
  end.

(** The invocation [MMain(h, p, c, n)] as it is written in a source file. *)
Definition MMain_call (h p c n : string) : list token :=
  [Id "MMain"; Punct LParen; Id h; Punct Comma; Id p; Punct Comma;
   Id c; Punct Comma; Id n; Punct RParen].

(** [int cc WinMain(HINSTANCE h, HINSTANCE p, LPSTR c, int n) {] *)
Definition WinMain_header (cc : list token) (h p c n : string) : list token :=
  [Id "int"] ++ cc ++
  [Id "WinMain"; Punct LParen;
   Id "HINSTANCE"; Id h; Punct Comma;
   Id "HINSTANCE"; Id p; Punct Comma;
   Id "LPSTR"; Id c; Punct Comma;
   Id "int"; Id n; Punct RParen;
   Punct LBrace].

Definition count_punct (p : punct) (ts : list token) : nat :=
  length (filter (λ t, t = Punct p) ts).

(** A host is well behaved when reading a system header neither undefines
    the header's guard macro nor makes the compiler forget that the header
    asked to be read once. *)
Definition well_behaved (sys_header : string → pstate → pstate) : Prop :=
  ∀ h st,
    (is_Some (defs st !! guard_name) → is_Some (defs (sys_header h st) !! guard_name))
    ∧ (file_name ∈ once st → file_name ∈ once (sys_header h st)).

(** The header has been read: its guard is defined and, where the compiler
    honours [#pragma once], the file is remembered. *)
Definition already_read (honours_once : bool) (st : pstate) : Prop :=
  is_Some (defs st !! guard_name) ∧ (honours_once = true → file_name ∈ once st).

(** ** Reading the header for the first time *)

(** The state in which line 14 is reached when the guard macro was not
    defined: [#pragma once], the definition of the guard and the two system
    headers have been processed. *)
Definition prologue_state (sys_header : string → pstate → pstate) (honours_once : bool)
    (budget : nat) (st : pstate) : pstate :=
  process_lines sys_header honours_once budget file_name
    [ PragmaOnce; Define guard_name (ObjLike []);
      Include "windows.h"; Include "string.h" ] st.

(** The program text that lines 14 to 62 contribute: the definition of
    [MMoveTo], inside [extern "C" { }] when the translation unit is C++. *)
Definition shim_text (cplusplus : bool) : list token :=
  (if cplusplus then [Id "extern"; Str "C"; Punct LBrace] else [])
  ++ MMoveTo_text
  ++ (if cplusplus then [Punct RBrace] else []).

(** Identifiers separated by commas, and the invocation
    [name(a1, ..., an)] as it is written in a source file. *)
Fixpoint comma_separated (args : list string) : list token :=
  match args with
  | [] => []
  | a :: rest =>
      Id a :: match rest with
              | [] => []
              | _ :: _ => Punct Comma :: comma_separated rest
              end
  end.

Definition call_tokens (name : string) (args : list string) : list token :=
  Id name :: Punct LParen :: comma_separated args ++ [Punct RParen].

(** The number of parameters of a function-like macro. *)
Definition macro_arity (m : macro) : option nat :=
  match m with
  | ObjLike _ => None
  | FunLike params _ => Some (length params)
  end.

(** A translation unit that defined a function [MMoveTo] of its own before
    the header is read, and a C++ translation unit. *)
Definition mmoveto_first : pstate :=
  define_function
    [Id "int"; Id "MMoveTo"; Punct LParen; Punct RParen;
     Punct LBrace; Id "return"; Num 0; Punct Semi; Punct RBrace]
    empty_state.

Definition cplusplus_unit : pstate :=
  define "__cplusplus" (ObjLike [Num 199711]) empty_state.

(** No identifier of the text names a macro of the table: replacement
    leaves such text as it is. *)
Definition inert_in (env : gmap string macro) (ts : list token) : bool :=
  forallb (λ t, match t with
                | Id n => bool_decide (env !! n = None)
                | _ => true
                end) ts.

(** ** The run-time layer *)

Local Open Scope Z_scope.

Module Port1632.

(** *** The [max] and [min] macro bodies

    The operands of a macro invocation are expressions, not values: the
    replacement list mentions each parameter twice, so each operand is
    evaluated for the comparison and the selected one is evaluated again.
    An operand of integer type is a function from the program state to
    its value and the state after its side effects.  C leaves the order
    in which the two operands of the comparison are evaluated open; here
    the left one goes first. *)
Section Extremum.
Context {S : Type}.

Definition operand : Type := S → Z * S.

(** An operand without side effects. *)
Definition value (v : Z) : operand := λ s, (v, s).

(** [(((a) > (b)) ? (a) : (b))] *)
Definition max (a b : operand) : operand := λ s,
  let '(va, s1) := a s in
  let '(vb, s2) := b s1 in
  if bool_decide (va > vb) then a s2 else b s2.

(** [(((a) < (b)) ? (a) : (b))] *)
Definition min (a b : operand) : operand := λ s,
  let '(va, s1) := a s in
  let '(vb, s2) := b s1 in
  if bool_decide (va < vb) then a s2 else b s2.
End Extremum.

(** *** Operands of different integer types

    The value of an operand of type [int] or [unsigned int], both of 32
    bits.  The comparison converts its two operands to their common type
    (the usual arithmetic conversions), and the conditional expression has
    that type too, so the selected operand is converted to it. *)
Inductive ctype := TInt | TUInt.

Record cvalue := CVal { c_type : ctype; c_num : Z }.

Definition in_range (t : ctype) (n : Z) : Prop :=
  match t with
  | TInt => - 2 ^ 31 ≤ n < 2 ^ 31
  | TUInt => 0 ≤ n < 2 ^ 32
  end.

Definition common_type (t1 t2 : ctype) : ctype :=
  match t1, t2 with
  | TInt, TInt => TInt
  | _, _ => TUInt
  end.

Definition convert (t : ctype) (v : cvalue) : cvalue :=
  match t with
  | TUInt => CVal TUInt (c_num v `mod` 2 ^ 32)
  | TInt => CVal TInt ((c_num v + 2 ^ 31) `mod` 2 ^ 32 - 2 ^ 31)
  end.

Section TypedExtremum.
Context {S : Type}.

Definition toperand : Type := S → cvalue * S.

Definition tvalue (v : cvalue) : toperand := λ s, (v, s).

(** [(((a) > (b)) ? (a) : (b))] on typed operands. *)
Definition max_typed (a b : toperand) : toperand := λ s,
  let '(va, s1) := a s in
  let '(vb, s2) := b s1 in
  let t := common_type (c_type va) (c_type vb) in
  let '(r, s3) :=
    if bool_decide (c_num (convert t va) > c_num (convert t vb)) then a s2 else b s2 in
  (convert t r, s3).

(** [(((a) < (b)) ? (a) : (b))] on typed operands. *)
Definition min_typed (a b : toperand) : toperand := λ s,
  let '(va, s1) := a s in
  let '(vb, s2) := b s1 in
  let t := common_type (c_type va) (c_type vb) in
  let '(r, s3) :=
    if bool_decide (c_num (convert t va) < c_num (convert t vb)) then a s2 else b s2 in
  (convert t r, s3).
End TypedExtremum.

(** *** Byte memory and the C runtime primitives

    Memory maps the valid addresses to the byte stored there. *)

Definition to_uchar (c : Z) : Z := c `mod` 256.

Fixpoint read_bytes (m : gmap Z Z) (a : Z) (n : nat) : option (list Z) :=
  match n with
  | O => Some []
  | S n' => b ← m !! a; bs ← read_bytes m (a + 1) n'; Some (b :: bs)
  end.

Fixpoint write_bytes (m : gmap Z Z) (a : Z) (bs : list Z) : option (gmap Z Z) :=
  match bs with
  | [] => Some m
  | b :: bs' =>
      match m !! a with
      | Some _ => write_bytes (<[a := b]> m) (a + 1) bs'
      | None => None
      end
  end.

Definition overlap (a b : Z) (n : N) : bool :=
  bool_decide (0 < Z.of_N n ∧ a < b + Z.of_N n ∧ b < a + Z.of_N n).

(** Modelled from the spec: the standard memory-copy primitive of the C
    runtime, declared by [<string.h>], (dest, src, length) → dest.  It
    copies [n] bytes from [src] to [dest] and returns [dest]; its
    behaviour is undefined ([None]) when a byte of either buffer is not
    valid or when the buffers overlap. *)
Definition memcpy (dest src : Z) (n : N) (m : gmap Z Z) : option (Z * gmap Z Z) :=
  if overlap dest src n then None
  else
    bs ← read_bytes m src (N.to_nat n);
    m' ← write_bytes m dest bs;
    Some (dest, m').

(** Modelled from the spec: the standard memory-fill primitive of the C
    runtime, (dest, fill-byte, length) → dest.  The fill value is an [int]
    that is stored converted to [unsigned char]. *)
Definition memset (dest c : Z) (n : N) (m : gmap Z Z) : option (Z * gmap Z Z) :=
  m' ← write_bytes m dest (replicate (N.to_nat n) (to_uchar c));
  Some (dest, m').

(** [#define hmemcpy memcpy] *)
Definition hmemcpy := memcpy.

(** [#define hmemset memset] *)
Definition hmemset := memset.

(** The buffer of [n] bytes at [a] is valid. *)
Definition valid_buffer (m : gmap Z Z) (a : Z) (n : N) : Prop :=
  ∀ i, 0 ≤ i < Z.of_N n → is_Some (m !! (a + i)).

(** *** Drawing surfaces *)

(** [POINT]: two [LONG] fields. *)
Record POINT := Point { pt_x : Z; pt_y : Z }.

(** A device context: the current position and the rest of its state, of
    which the selected pen and brush and the lines drawn so far stand
    here. *)
Record DC := MkDC {
  dc_pos : POINT;
  dc_pen : Z;
  dc_brush : Z;
  dc_lines : list (POINT * POINT)
}.

Definition set_pos (p : POINT) (dc : DC) : DC :=
  MkDC p (dc_pen dc) (dc_brush dc) (dc_lines dc).

(** The device contexts by handle, and the automatic [POINT] objects that
    are alive, oldest first; a slot holds [None] until it is written. *)
Record world := World {
  dcs : gmap Z DC;
  autos : list (option POINT)
}.

(** [LPPOINT]: null, or the address of an automatic [POINT]. *)
Definition LPPOINT : Type := option nat.

Definition primitive : Type := Z → Z → Z → LPPOINT → world → Z * world.

(** Entering the scope of [POINT pt;]: the object is the slot after the
    ones alive, and it is not initialised. *)
Definition enter_scope (w : world) : nat * world :=
  (length (autos w), World (dcs w) (autos w ++ [None])).

(** Leaving it: the youngest automatic object dies. *)
Definition leave_scope (w : world) : world :=
  World (dcs w) (take (length (autos w) - 1)%nat (autos w)).

(** Writing through an [LPPOINT]: nothing is written through the null
    pointer, nor through an address at which no automatic object is
    alive. *)
Definition store_point (lppt : LPPOINT) (p : POINT) (w : world) : world :=
  match lppt with
  | None => w
  | Some a => World (dcs w) (<[a := Some p]> (autos w))
  end.

(** Modelled from the spec: the host's cursor-position-update primitive,
    (surface handle, x, y, out-parameter previous-point) → success/failure
    code.  On a handle that names a device context it writes the previous
    position through the pointer when that is not null, moves the current
    position to (x, y) and returns nonzero; on any other handle it fails:
    it returns zero and changes nothing. *)
Definition MoveToEx : primitive := λ hdc x y lppt w,
  match dcs w !! hdc with
  | None => (0, w)
  | Some dc =>
      let w' := store_point lppt (dc_pos dc) w in
      (1, World (<[hdc := set_pos (Point x y) dc]> (dcs w')) (autos w'))
  end.

(** Modelled from the spec: the host's line-drawing primitive, used to
    observe the current position: it draws from the current position to
    (x, y) and leaves the current position there. *)
Definition LineTo (hdc x y : Z) (w : world) : Z * world :=
  match dcs w !! hdc with
  | None => (0, w)
  | Some dc =>
      let dc' := MkDC (Point x y) (dc_pen dc) (dc_brush dc)
                      (dc_lines dc ++ [(dc_pos dc, Point x y)]) in
      (1, World (<[hdc := dc']> (dcs w)) (autos w))
  end.

Section Wrapper.
(** The primitive [MoveToEx] that the linker resolves the call to. *)
Variable MoveToEx : primitive.

(** [__inline int MMoveTo(HDC hdc, int x, int y)
     { POINT pt; return MoveToEx(hdc, x, y, &pt); }] *)
Definition MMoveTo (hdc x y : Z) (w : world) : Z * world :=
  let '(pt, w0) := enter_scope w in
  let '(r, w1) := MoveToEx hdc x y (Some pt) w0 in
  (r, leave_scope w1).
End Wrapper.

Definition position (hdc : Z) (w : world) : option POINT :=
  dc_pos <$> dcs w !! hdc.

(** The world [w] with the current position of [hdc] set to [p]. *)
Definition with_position (hdc : Z) (p : POINT) (w : world) : world :=
  World (alter (set_pos p) hdc (dcs w)) (autos w).

(** Examples of operands: each yields its value and leaves its name in a
    log. *)
Definition logged (name : string) (v : Z) : @operand (list string) :=
  λ log, (v, (log ++ [name])%list).

(** The operand [x++] in a state that consists of the variable [x]: its
    value is the old [x], and [x] is one more afterwards. *)
Definition post_increment : @operand Z := λ x, (x, x + 1).

(** A primitive keeps to the pointer it is given when it creates and
    destroys no automatic object and writes to none but the one the pointer
    addresses. *)
Definition keeps_to_pointer (prim : primitive) : Prop :=
  ∀ hdc x y p w,
    length (autos (prim hdc x y (Some p) w).2) = length (autos w)
    ∧ ∀ i, i ≠ p → autos (prim hdc x y (Some p) w).2 !! i = autos w !! i.

(** Example of a memory: the bytes 1, 2, 3 at 100 and three zero bytes
    at 200. *)
Definition sample_memory : gmap Z Z :=
  list_to_map [(100, 1); (101, 2); (102, 3); (200, 0); (201, 0); (202, 0)].

(** Examples of worlds: one device context, handle 7, positioned at
    (1, 2), and no automatic object alive. *)
Definition sample_dc : DC := MkDC (Point 1 2) 10 11 [].
Definition sample_world : world := World {[7 := sample_dc]} [].

End Port1632.

(** * Properties of the translation-time layer *)

Lemma with_defs_same st : with_defs (defs st) st = st.
Proof. by destruct st. Qed.

Lemma with_defs_twice d d' st : with_defs d (with_defs d' st) = with_defs d st.
Proof. done. Qed.

Lemma union_singleton_defined (d : gmap string macro) n m :
  is_Some (d !! n) → d ∪ {[n := m]} = d.
Proof.
  intros [m' Hm']. apply map_eq. intros i. rewrite lookup_union.
  destruct (decide (i = n)) as [->|Hne].
  - rewrite Hm', lookup_singleton_eq. done.
  - rewrite lookup_singleton_ne by done. by destruct (d !! i).
Qed.

Lemma shim_macros_unfold :
  ({[ "MMain" := MMain_macro ]} : gmap string macro)
    ∪ ({[ "hmemcpy" := hmemcpy_macro ]}
    ∪ ({[ "hmemset" := hmemset_macro ]}
    ∪ ({[ "EXPENTRY" := EXPENTRY_macro ]}
    ∪ ({[ "WINAPI16" := WINAPI16_macro ]}
    ∪ ({[ "max" := max_macro ]} ∪ {[ "min" := min_macro ]})))))
  = shim_macros.
Proof.
  rewrite <- !insert_union_singleton_l, <- insert_empty.
  unfold shim_macros, list_to_map. reflexivity.
Qed.

Section TranslationFacts.
Context (sys : string → pstate → pstate) (ho : bool) (budget : nat).

Lemma process_lines_app file ls1 ls2 st :
  process_lines sys ho budget file (ls1 ++ ls2) st
  = process_lines sys ho budget file ls2 (process_lines sys ho budget file ls1 st).
Proof. revert st. induction ls1 as [|l ls1 IH]; intros st; simpl; auto. Qed.

Lemma process_lines_cons file l ls st :
  process_lines sys ho budget file (l :: ls) st
  = process_lines sys ho budget file ls (process_line sys ho budget file l st).
Proof. reflexivity. Qed.

Lemma process_line_IfNDef file n body st :
  process_line sys ho budget file (IfNDef n body) st
  = if defined n st then st else process_lines sys ho budget file body st.
Proof.
  cbn [process_line]. destruct (defined n st); [reflexivity|].
  revert st. induction body as [|l body IH]; intros st; [reflexivity|].
  cbn [process_lines]. rewrite <- IH. reflexivity.
Qed.

Lemma process_line_IfDef file n body st :
  process_line sys ho budget file (IfDef n body) st
  = if defined n st then process_lines sys ho budget file body st else st.
Proof.
  cbn [process_line]. destruct (defined n st); [|reflexivity].
  revert st. induction body as [|l body IH]; intros st; [reflexivity|].
  cbn [process_lines]. rewrite <- IH. reflexivity.
Qed.

(** [#ifndef n / #define n m / #endif] enters [n] unless it is bound. *)
Lemma guarded_define file n m st :
  process_line sys ho budget file (IfNDef n [Define n m]) st
  = with_defs (defs st ∪ {[n := m]}) st.
Proof.
  simpl. unfold defined. case_bool_decide as Hn.
  - rewrite union_singleton_defined by done. by rewrite with_defs_same.
  - apply eq_None_not_Some in Hn. unfold define. rewrite Hn.
    by rewrite insert_union_singleton_r.
Qed.

(** The seven bindings together: a left-biased union, in which the
    definitions already in the table win. *)
Lemma process_bindings file st :
  process_lines sys ho budget file bindings st = with_defs (defs st ∪ shim_macros) st.
Proof.
  unfold bindings. cbn [process_lines]. rewrite !guarded_define.
  cbn [defs with_defs]. rewrite <- !(assoc_L (∪)).
  by rewrite shim_macros_unfold.
Qed.

(** Whatever the operations on the state preserve, every line preserves. *)
Lemma process_line_preserves (Q : pstate → Prop) file :
  (∀ h st, Q st → Q (sys h st)) →
  (∀ n m st, Q st → Q (define n m st)) →
  (∀ t st, Q st → Q (emit t st)) →
  (∀ t st, Q st → Q (define_function t st)) →
  (∀ st, Q st → Q (with_diag ReplacementFailed st)) →
  (∀ st, Q st → Q (mark_once file st)) →
  ∀ l st, Q st → Q (process_line sys ho budget file l st).
Proof.
  intros Hsys Hdef Hemit Hfun Hfail Honce. fix IH 1.
  intros [| h | n m | n body | n body | t | t] st HQ; simpl.
  - clear IH. destruct ho; auto.
  - clear IH. auto.
  - clear IH. auto.
  - destruct (defined n st); [|exact HQ]. revert st HQ.
    induction body as [|l' body IHb]; intros st HQ; [exact HQ|].
    apply IHb, IH, HQ.
  - destruct (defined n st); [exact HQ|]. revert st HQ.
    induction body as [|l' body IHb]; intros st HQ; [exact HQ|].
    apply IHb, IH, HQ.
  - clear IH. unfold replaced. destruct (expand_tokens _ _ _); auto.
  - clear IH. unfold replaced. destruct (expand_tokens _ _ _); auto.
Qed.

Lemma process_lines_preserves (Q : pstate → Prop) file :
  (∀ h st, Q st → Q (sys h st)) →
  (∀ n m st, Q st → Q (define n m st)) →
  (∀ t st, Q st → Q (emit t st)) →
  (∀ t st, Q st → Q (define_function t st)) →
  (∀ st, Q st → Q (with_diag ReplacementFailed st)) →
  (∀ st, Q st → Q (mark_once file st)) →
  ∀ ls st, Q st → Q (process_lines sys ho budget file ls st).
Proof.
  intros Hsys Hdef Hemit Hfun Hfail Honce ls.
  induction ls as [|l ls IH]; intros st HQ; simpl; auto.
  apply IH. by apply process_line_preserves.
Qed.
End TranslationFacts.

(** ** Conditional inclusion: first definition wins, reading twice *)

Lemma define_keeps_defined k n m st :
  is_Some (defs st !! k) → is_Some (defs (define n m st) !! k).
Proof.
  intros Hk. unfold define. destruct (defs st !! n) as [m'|] eqn:Hn.
  - destruct (decide (m' = m)); [done|]. simpl.
    apply lookup_insert_is_Some. destruct (decide (n = k)); auto.
  - simpl. apply lookup_insert_is_Some. destruct (decide (n = k)); auto.
Qed.

Lemma define_keeps_defined_new n m st : is_Some (defs (define n m st) !! n).
Proof.
  unfold define. destruct (defs st !! n) as [m'|] eqn:Hn.
  - destruct (decide (m' = m)); simpl; [by rewrite Hn|].
    rewrite lookup_insert_eq. done.
  - simpl. rewrite lookup_insert_eq. done.
Qed.

(** A function definition leaves the macro table and the files to be read
    once as they are, and adds its tokens to the text. *)
Lemma define_function_keeps t st :
  defs (define_function t st) = defs st
  ∧ once (define_function t st) = once st
  ∧ text (define_function t st) = (text st ++ t)%list.
Proof.
  unfold define_function. destruct (declared_name t); [|done].
  destruct (bool_decide _); [|done]. by destruct (defined _ st).
Qed.

Lemma already_read_preserved sys ho budget file ls st :
  well_behaved sys →
  already_read ho st → already_read ho (process_lines sys ho budget file ls st).
Proof.
  intros Hsys. apply process_lines_preserves.
  - intros h st' [Hg Ho]. destruct (Hsys h st') as [H1 H2]. split; auto.
  - intros n m st' [Hg Ho]. split; [by apply define_keeps_defined|].
    intros E. specialize (Ho E). unfold define.
    destruct (defs st' !! n); [destruct (decide _)|]; done.
  - intros t st' [Hg Ho]. by split.
  - intros t st' [Hg Ho]. destruct (define_function_keeps t st') as (Hd & Ho' & _).
    unfold already_read. rewrite Hd, Ho'. by split.
  - intros st' [Hg Ho]. by split.
  - intros st' [Hg Ho]. split; [done|]. intros E. specialize (Ho E).
    simpl. apply elem_of_union. by right.
Qed.

(** Reading the header when it has been read changes nothing. *)
Lemma read_again sys ho budget st :
  already_read ho st → include_shim sys ho budget st = st.
Proof.
  intros [Hg Ho]. unfold include_shim, include. destruct ho.
  - rewrite bool_decide_eq_true_2 by auto. reflexivity.
  - cbn [andb]. unfold port1632_h. cbn [process_lines process_line].
    unfold defined. rewrite bool_decide_eq_true_2 by done. reflexivity.
Qed.

(** After the header was read, it has been read, unless the compiler
    skipped the file on account of [#pragma once]. *)
Lemma after_read sys ho budget st :
  well_behaved sys →
  (ho && bool_decide (file_name ∈ once st) = false) →
  already_read ho (include_shim sys ho budget st).
Proof.
  intros Hsys Hskip. unfold include_shim, include. rewrite Hskip.
  unfold port1632_h. cbn [process_lines].
  set (st0 := process_line sys ho budget file_name PragmaOnce st).
  assert (Honce : ho = true → file_name ∈ once st0).
  { intros ->. subst st0. cbn [process_line mark_once once].
    apply elem_of_union. left. by apply elem_of_singleton. }
  rewrite process_line_IfNDef. destruct (defined guard_name st0) eqn:Hd.
  - split; [|done]. by apply bool_decide_eq_true_1 in Hd.
  - unfold guarded_part. cbn [app]. rewrite process_lines_cons.
    apply already_read_preserved; [done|].
    split.
    + cbn [process_line]. apply define_keeps_defined_new.
    + intros E. specialize (Honce E). cbn [process_line]. unfold define.
      destruct (defs st0 !! guard_name); [destruct (decide _)|]; done.
Qed.

Lemma shim_macros_lookup name :
  name ∈ shim_names → is_Some (shim_macros !! name).
Proof.
  unfold shim_names. rewrite !elem_of_cons, elem_of_nil.
  intros [->|[->|[->|[->|[->|[->|[->|[]]]]]]]]; eexists; reflexivity.
Qed.

Section WholeHeader.
Context (sys : string → pstate → pstate) (ho : bool) (budget : nat).

Lemma defs_replaced_emit toks st : defs (replaced budget emit toks st) = defs st.
Proof. unfold replaced. by destruct (expand_tokens _ _ _). Qed.

Lemma defs_replaced_function toks st :
  defs (replaced budget define_function toks st) = defs st.
Proof.
  unfold replaced. destruct (expand_tokens _ _ _); [|done].
  destruct (define_function_keeps l st) as (Hd & _). by rewrite Hd.
Qed.

Lemma defs_IfDef_Text file n toks st :
  defs (process_line sys ho budget file (IfDef n [Text toks]) st) = defs st.
Proof.
  rewrite process_line_IfDef. destruct (defined n st); [|done].
  cbn [process_lines process_line]. apply defs_replaced_emit.
Qed.

Lemma defs_FunDef file toks st :
  defs (process_line sys ho budget file (FunDef toks) st) = defs st.
Proof. cbn [process_line]. apply defs_replaced_function. Qed.

(** A definition that is in force when the header is included, and that
    the system headers leave alone, is in force afterwards. *)
Lemma include_shim_keeps st name m :
  (∀ h s, defs s !! name = Some m → defs (sys h s) !! name = Some m) →
  defs st !! name = Some m →
  defs (include_shim sys ho budget st) !! name = Some m.
Proof.
  intros Hsys Hm. unfold include_shim, include.
  destruct (ho && bool_decide (file_name ∈ once st)); [done|].
  unfold port1632_h. rewrite process_lines_cons.
  set (st0 := process_line sys ho budget file_name PragmaOnce st).
  assert (H0 : defs st0 !! name = Some m).
  { subst st0. cbn [process_line]. by destruct ho. }
  clearbody st0. cbn [process_lines]. rewrite process_line_IfNDef.
  destruct (defined guard_name st0) eqn:Hg; [done|].
  unfold guarded_part. rewrite !process_lines_app, process_bindings.
  cbn [process_lines]. rewrite defs_IfDef_Text, defs_FunDef.
  cbn [defs with_defs]. apply lookup_union_Some_l.
  rewrite defs_IfDef_Text. cbn [process_line]. do 2 apply Hsys.
  unfold defined in Hg. apply bool_decide_eq_false_1 in Hg.
  apply eq_None_not_Some in Hg. unfold define. rewrite Hg.
  cbn [defs with_defs]. rewrite lookup_insert_ne; [done|].
  intros <-. congruence.
Qed.
End WholeHeader.

(** C4. Each of the seven bindings of the header (the entry-point macro,
    the two memory aliases, the two calling-convention aliases, [max] and
    [min]) is guarded: in whatever state the translation reaches line 18,
    a name that is already defined keeps the definition it has, a name
    that is not defined receives the header's definition, and no
    redefinition is diagnosed.  For the header as a whole: a definition in
    force when the header is included, which the system headers it reads
    leave alone, is the one in force afterwards. *)
Theorem first_definition_wins sys ho budget (st : pstate) name :
  name ∈ shim_names →
  let st' := process_lines sys ho budget file_name bindings st in
  (∀ m, defs st !! name = Some m → defs st' !! name = Some m)
  ∧ (defs st !! name = None →
       defs st' !! name = shim_macros !! name ∧ is_Some (shim_macros !! name))
  ∧ diags st' = diags st
  ∧ (∀ m, defs st !! name = Some m →
          (∀ h s, defs s !! name = Some m → defs (sys h s) !! name = Some m) →
          defs (include_shim sys ho budget st) !! name = Some m).
Proof.
  intros Hname st'. subst st'. rewrite process_bindings. cbn [defs with_defs diags].
  split; [|split; [|split]].
  - intros m Hm. by apply lookup_union_Some_l.
  - intros Hnone. split; [by apply lookup_union_r|by apply shim_macros_lookup].
  - reflexivity.
  - intros m Hm Hsys. by apply include_shim_keeps.
Qed.

Lemma first_definition_wins_witness :
  defs (process_lines win32_header true 64 file_name bindings expentry_first) !! "EXPENTRY"
  = Some (ObjLike [Id "__export"])
  ∧ defs (include_shim win32_header true 64 expentry_first) !! "EXPENTRY"
    = Some (ObjLike [Id "__export"]).
Proof.
  assert (Hname : "EXPENTRY" ∈ shim_names).
  { unfold shim_names. rewrite !elem_of_cons. tauto. }
  destruct (first_definition_wins win32_header true 64 expentry_first "EXPENTRY" Hname)
    as (H1 & _ & _ & H4).
  split; [by apply H1|]. by vm_compute.
Defined.

Lemma win32_header_well_behaved : well_behaved win32_header.
Proof.
  intros h st. unfold win32_header. destruct (decide (h = "windows.h")); [|done].
  split.
  - apply (process_lines_preserves _ _ _ (λ s, is_Some (defs s !! guard_name))); try done.
    + intros n m s. apply define_keeps_defined.
    + intros t s Hs. destruct (define_function_keeps t s) as (Hd & _).
      by rewrite Hd.
  - apply (process_lines_preserves _ _ _ (λ s, file_name ∈ once s)); try done.
    + intros n m s Hs. unfold define.
      destruct (defs s !! n); [destruct (decide _)|]; done.
    + intros t s Hs. destruct (define_function_keeps t s) as (_ & Ho' & _).
      by rewrite Ho'.
    + intros s Hs. cbn [mark_once once]. apply elem_of_union. by right.
Qed.

(** C8. Reading the header is idempotent: after the header was read once,
    reading it again leaves the whole translation state as it is, so no
    definition is installed, no function is defined again and no
    redefinition is diagnosed; the same holds for any number of further
    inclusions.  The host's system headers are assumed not to undefine the
    guard macro. *)
Theorem include_twice sys ho budget (st : pstate) :
  well_behaved sys →
  let first := include_shim sys ho budget st in
  let second := include_shim sys ho budget first in
  second = first ∧ defs second = defs first ∧ funs second = funs first
  ∧ diags second = diags first
  ∧ ∀ k, Nat.iter (S k) (include_shim sys ho budget) st = first.
Proof.
  intros Hsys first second.
  assert (E : second = first).
  { subst second first.
    destruct (ho && bool_decide (file_name ∈ once st)) eqn:Hskip.
    - unfold include_shim at 2. unfold include. rewrite Hskip.
      unfold include_shim, include. by rewrite Hskip.
    - by apply read_again, after_read. }
  rewrite E. repeat split.
  intros k. induction k as [|k IH]; [reflexivity|].
  change (Nat.iter (S (S k)) (include_shim sys ho budget) st)
    with (include_shim sys ho budget (Nat.iter (S k) (include_shim sys ho budget) st)).
  rewrite IH. exact E.
Qed.

Lemma include_twice_witness :
  include_shim win32_header false 64 (include_shim win32_header false 64 empty_state)
  = include_shim win32_header false 64 empty_state.
Proof.
  exact (proj1 (include_twice win32_header false 64 empty_state win32_header_well_behaved)).
Defined.

(** ** Macro replacement: one step at a time *)

Section ReplacementFacts.
Context (env : gmap string macro).

Lemma expand_other fuel t hs ts :
  (∀ n, t ≠ Id n) →
  expand env (S fuel) ((t, hs) :: ts) = cons (t, hs) <$> expand env fuel ts.
Proof. intros Ht. destruct t; try reflexivity. by destruct (Ht name). Qed.

(** An identifier that names no macro stays. *)
Lemma expand_inert fuel k hs ts :
  env !! k = None →
  expand env (S fuel) ((Id k, hs) :: ts) = cons (Id k, hs) <$> expand env fuel ts.
Proof. intros Hk. cbn [expand]. rewrite Hk. by case_bool_decide. Qed.

(** An object-like macro is replaced by its replacement list, which is
    scanned again together with what follows. *)
Lemma expand_obj fuel n hs body ts :
  n ∉ hs → env !! n = Some (ObjLike body) →
  expand env (S fuel) ((Id n, hs) :: ts)
  = expand env fuel (hsadd (n :: hs) (fresh_tokens body) ++ ts).
Proof.
  intros Hn Hm. cbn [expand]. rewrite Hm. by rewrite bool_decide_eq_false_2.
Qed.

(** A function-like macro followed by its parenthesised arguments. *)
Lemma expand_fun fuel n hs hs0 params body ts args hs' rest args' :
  n ∉ hs → env !! n = Some (FunLike params body) →
  collect_args O [] [] ts = Some (args, hs', rest) →
  length (normalise_args params args) = length params →
  mapM (expand env fuel) (normalise_args params args) = Some args' →
  expand env (S fuel) ((Id n, hs) :: (Punct LParen, hs0) :: ts)
  = expand env fuel (hsadd (n :: hsinter hs hs') (subst params args' body) ++ rest).
Proof.
  intros Hn Hm Hargs Hlen Hexp. cbn [expand]. rewrite Hm.
  rewrite bool_decide_eq_false_2 by done. rewrite Hargs. cbn [mbind option_bind].
  rewrite bool_decide_eq_true_2 by done. rewrite Hexp. reflexivity.
Qed.

(** A function-like macro name that is not followed by a parenthesis is
    not an invocation. *)
Lemma expand_fun_name_only fuel n hs params body :
  env !! n = Some (FunLike params body) →
  expand env (S (S fuel)) [(Id n, hs)] = Some [(Id n, hs)].
Proof. intros Hm. cbn [expand]. rewrite Hm. by case_bool_decide. Qed.

Lemma expand_single_inert fuel k hs :
  env !! k = None → expand env (S (S fuel)) [(Id k, hs)] = Some [(Id k, hs)].
Proof. intros Hk. by rewrite expand_inert. Qed.

(** The aliased keyword, reached through two object-like macros. *)
Lemma expand_alias fuel alias target k ts :
  alias ≠ target →
  env !! alias = Some (ObjLike [Id target]) →
  env !! target = Some (ObjLike [Id k]) →
  env !! k = None →
  expand env fuel ((Id alias, []) :: ts)
  = match fuel with
    | S (S (S f)) => cons (Id k, [target; alias]) <$> expand env f ts
    | _ => None
    end.
Proof.
  intros Hne Ha Ht Hk. destruct fuel as [|[|[|f]]]; [reflexivity| | |].
  - rewrite (expand_obj _ _ _ _ _ (not_elem_of_nil _) Ha). reflexivity.
  - rewrite (expand_obj _ _ _ _ _ (not_elem_of_nil _) Ha).
    cbn [hsadd fresh_tokens map app fst snd].
    rewrite (expand_obj _ target [alias] [Id k]); [reflexivity| |done].
    rewrite elem_of_cons, elem_of_nil. intros [E|[]]. congruence.
  - rewrite (expand_obj _ _ _ _ _ (not_elem_of_nil _) Ha).
    cbn [hsadd fresh_tokens map app fst snd].
    rewrite (expand_obj _ target [alias] [Id k]); [| |done].
    + cbn [hsadd fresh_tokens map app fst snd]. by rewrite expand_inert.
    + rewrite elem_of_cons, elem_of_nil. intros [E|[]]. congruence.
Qed.
End ReplacementFacts.

(** ** The calling-convention aliases *)

(** C2. The header binds [EXPENTRY] to [WINAPI] and [WINAPI16] to
    [CALLBACK], the two names under which the host header, read at line 11
    before the aliases are defined, provides its callback calling
    convention.  With the host defining both as the same keyword [k], as
    the 32-bit SDK does, both aliases stand for that one keyword and are
    interchangeable: any text that starts with one is replaced exactly as
    the text that starts with the other, and each alias alone becomes
    [k]. *)
Theorem aliases_agree_when_host_agrees env k fuel rest :
  env !! "EXPENTRY" = Some EXPENTRY_macro →
  env !! "WINAPI16" = Some WINAPI16_macro →
  env !! "WINAPI" = Some (ObjLike [Id k]) →
  env !! "CALLBACK" = Some (ObjLike [Id k]) →
  env !! k = None →
  expand_tokens env fuel (Id "EXPENTRY" :: rest)
  = expand_tokens env fuel (Id "WINAPI16" :: rest)
  ∧ expand_tokens env (4 + fuel) [Id "EXPENTRY"] = Some [Id k]
  ∧ expand_tokens env (4 + fuel) [Id "WINAPI16"] = Some [Id k].
Proof.
  intros He Hw Hwinapi Hcallback Hk. unfold expand_tokens.
  cbn [fresh_tokens map].
  rewrite !(expand_alias env _ "EXPENTRY" "WINAPI" k) by done.
  rewrite !(expand_alias env _ "WINAPI16" "CALLBACK" k) by done.
  split; [|split; reflexivity].
  destruct fuel as [|[|[|f]]]; try reflexivity.
  by destruct (expand env f _).
Qed.

Lemma aliases_agree_when_host_agrees_witness :
  expand_tokens win32_env 9 [Id "EXPENTRY"; Id "WndProc"]
  = expand_tokens win32_env 9 [Id "WINAPI16"; Id "WndProc"]
  ∧ expand_tokens win32_env 9 [Id "EXPENTRY"] = Some [Id "__stdcall"]
  ∧ expand_tokens win32_env 9 [Id "WINAPI16"] = Some [Id "__stdcall"].
Proof.
  apply (aliases_agree_when_host_agrees win32_env "__stdcall" 5 [Id "WndProc"]);
    by vm_compute.
Defined.

(** ** The entry-point macro *)

Lemma map_fst_cons_fmap (x : htoken) (r : option (list htoken)) :
  map fst <$> (cons x <$> r) = cons x.1 <$> (map fst <$> r).
Proof. by destruct r. Qed.

Ltac not_hidden :=
  let H := fresh "Hin" in
  rewrite ?elem_of_cons, elem_of_nil; intros H; decompose [or] H;
  (congruence || contradiction).

(** C5. For every four argument names, the replacement of
    [MMain(h, p, c, n)] is the declaration
    [int APIENTRY WinMain(HINSTANCE h, HINSTANCE p, LPSTR c, int n)]
    followed by an opening brace, which is its last token: it has one
    opening and no closing brace.  In a translation unit where [APIENTRY]
    stands for the keyword [k] as in the SDK and the names are not macros,
    the invocation followed by any text [rest] is replaced by that
    declaration with [k], the opening brace, and the replacement of [rest]:
    body and closing brace have to come from [rest]. *)
Theorem MMain_expansion (h p c n : string) :
  instantiate MMain_macro [[Id h]; [Id p]; [Id c]; [Id n]]
  = WinMain_header [Id "APIENTRY"] h p c n
  ∧ (∀ cc, last (WinMain_header cc h p c n) = Some (Punct LBrace))
  ∧ count_punct LBrace (WinMain_header [Id "APIENTRY"] h p c n) = 1%nat
  ∧ count_punct RBrace (WinMain_header [Id "APIENTRY"] h p c n) = 0%nat
  ∧ (∀ env k fuel rest,
       env !! "MMain" = Some MMain_macro →
       env !! "APIENTRY" = Some (ObjLike [Id "WINAPI"]) →
       env !! "WINAPI" = Some (ObjLike [Id k]) →
       Forall (λ x, env !! x = None)
         [k; "int"; "WinMain"; "HINSTANCE"; "LPSTR"; h; p; c; n] →
       expand_tokens env (20 + fuel) (MMain_call h p c n ++ rest)
       = app (WinMain_header [Id k] h p c n) <$> expand_tokens env fuel rest).
Proof.
  split; [reflexivity|]. split.
  { intros cc. unfold WinMain_header. rewrite !last_app.
    reflexivity. }
  split; [reflexivity|]. split; [reflexivity|].
  intros env k fuel rest HMMain HAPI HWIN Hfree.
  repeat (apply Forall_cons_1 in Hfree as [? Hfree]). clear Hfree.
  unfold expand_tokens, MMain_call.
  cbn [fresh_tokens map app Nat.add].
  rewrite (expand_fun env _ "MMain" [] [] _ _ _
             [[(Id h, [])]; [(Id p, [])]; [(Id c, [])]; [(Id n, [])]] []
             (fresh_tokens rest)
             [[(Id h, [])]; [(Id p, [])]; [(Id c, [])]; [(Id n, [])]]
             (not_elem_of_nil _) HMMain);
    [|reflexivity|reflexivity|].
  2:{ cbn [normalise_args mapM]. rewrite !expand_single_inert by assumption.
      reflexivity. }
  match goal with
  | |- context [hsadd ?hs ?ts] =>
      replace (hsadd hs ts) with
        (map (λ t, (t, ["MMain"])) (WinMain_header [Id "APIENTRY"] h p c n))
        by (vm_compute; reflexivity)
  end.
  cbn [WinMain_header map app].
  rewrite expand_inert by assumption.
  rewrite (expand_obj env _ "APIENTRY" ["MMain"] [Id "WINAPI"]) by (done || not_hidden).
  cbn [hsadd fresh_tokens map app fst snd].
  rewrite (expand_obj env _ "WINAPI" ["APIENTRY"; "MMain"] [Id k]) by (done || not_hidden).
  cbn [hsadd fresh_tokens map app fst snd].
  repeat first [ rewrite expand_inert by assumption
               | rewrite expand_other by discriminate ].
  rewrite !map_fst_cons_fmap. cbn [fst].
  by destruct (map fst <$> expand env fuel (fresh_tokens rest)).
Qed.

Lemma MMain_expansion_witness :
  expand_tokens win32_env 30
    (MMain_call "hInstance" "hPrevInstance" "lpCmdLine" "nCmdShow"
       ++ [Id "return"; Num 0; Punct Semi; Punct RBrace])
  = app (WinMain_header [Id "__stdcall"]
           "hInstance" "hPrevInstance" "lpCmdLine" "nCmdShow")
      <$> expand_tokens win32_env 10 [Id "return"; Num 0; Punct Semi; Punct RBrace].
Proof.
  apply (MMain_expansion "hInstance" "hPrevInstance" "lpCmdLine" "nCmdShow");
    [by vm_compute ..|].
  repeat constructor; by vm_compute.
Defined.

(** * Properties of the run-time layer *)

Import Port1632.
Local Open Scope list_scope.

(** ** [max] and [min] *)

Lemma fst_fresh_tokens ts : map fst (fresh_tokens ts) = ts.
Proof.
  unfold fresh_tokens. rewrite map_map. cbn [fst]. apply map_id.
Qed.

(** X7. The replacement lists of [max] and [min] put each operand, whatever
    tokens it consists of, between parentheses of its own, and the whole
    conditional expression between parentheses. *)
Lemma extremum_text (ta tb : list token) :
  instantiate max_macro [ta; tb]
  = [Punct LParen; Punct LParen; Punct LParen] ++ ta ++
    [Punct RParen; Punct Greater; Punct LParen] ++ tb ++
    [Punct RParen; Punct RParen; Punct Quest; Punct LParen] ++ ta ++
    [Punct RParen; Punct Colon; Punct LParen] ++ tb ++
    [Punct RParen; Punct RParen]
  ∧ instantiate min_macro [ta; tb]
  = [Punct LParen; Punct LParen; Punct LParen] ++ ta ++
    [Punct RParen; Punct Less; Punct LParen] ++ tb ++
    [Punct RParen; Punct RParen; Punct Quest; Punct LParen] ++ ta ++
    [Punct RParen; Punct Colon; Punct LParen] ++ tb ++
    [Punct RParen; Punct RParen].
Proof.
  assert (Hs : ∀ (xa xb : list htoken) (op : punct),
             subst ["a"; "b"] [xa; xb]
               [Punct LParen; Punct LParen; Punct LParen; Id "a"; Punct RParen;
                Punct op; Punct LParen; Id "b"; Punct RParen; Punct RParen;
                Punct Quest; Punct LParen; Id "a"; Punct RParen;
                Punct Colon; Punct LParen; Id "b"; Punct RParen; Punct RParen]
             = fresh_tokens [Punct LParen; Punct LParen; Punct LParen] ++ xa ++
               fresh_tokens [Punct RParen; Punct op; Punct LParen] ++ xb ++
               fresh_tokens [Punct RParen; Punct RParen; Punct Quest; Punct LParen] ++ xa ++
               fresh_tokens [Punct RParen; Punct Colon; Punct LParen] ++ xb ++
               fresh_tokens [Punct RParen; Punct RParen]) by reflexivity.
  unfold instantiate, max_macro, min_macro. cbn [fmap list_fmap].
  rewrite !Hs, !map_app, !fst_fresh_tokens. done.
Qed.




(** C9. When the two operands evaluate to equal values, the strict
    comparison fails and both [max(a, b)] and [min(a, b)] are the
    evaluation of the second operand [b], the else branch of the
    conditional, in the state reached after the comparison. *)
Theorem equal_operands_select_second {S : Type} (a b : operand) (s s1 s2 : S) (v : Z) :
  a s = (v, s1) → b s1 = (v, s2) →
  max a b s = b s2 ∧ min a b s = b s2.
Proof.
  intros Ha Hb. unfold max, min. rewrite Ha, Hb.
  rewrite !bool_decide_eq_false_2 by lia. done.
Qed.

Lemma equal_operands_select_second_witness :
  max (logged "a" 3) (logged "b" 3) [] = (3, ["a"; "b"; "b"])
  ∧ min (logged "a" 3) (logged "b" 3) [] = (3, ["a"; "b"; "b"]).
Proof.
  apply (equal_operands_select_second (logged "a" 3) (logged "b" 3)
           [] ["a"] ["a"; "b"] 3); reflexivity.
Defined.

(** ** Byte memory: [hmemcpy] and [hmemset] *)

Lemma read_bytes_spec (m : gmap Z Z) a n :
  (∀ i : nat, (i < n)%nat → is_Some (m !! (a + Z.of_nat i))) →
  ∃ bs, read_bytes m a n = Some bs ∧ length bs = n
        ∧ ∀ i : nat, (i < n)%nat → bs !! i = m !! (a + Z.of_nat i).
Proof.
  revert a. induction n as [|n IH]; intros a Hv.
  - exists []. split; [done|]. split; [done|]. intros i Hi. lia.
  - destruct (Hv O ltac:(lia)) as [b Hb]. rewrite Z.add_0_r in Hb.
    destruct (IH (a + 1)) as (bs & Hbs & Hlen & Hnth).
    { intros i Hi. replace (a + 1 + Z.of_nat i) with (a + Z.of_nat (S i)) by lia.
      apply Hv. lia. }
    exists (b :: bs). cbn [read_bytes]. rewrite Hb, Hbs. cbn.
    split; [done|]. split; [by rewrite Hlen|].
    intros [|i] Hi; cbn.
    + by rewrite Z.add_0_r.
    + rewrite Hnth by lia. f_equal. lia.
Qed.

Lemma write_bytes_spec (m : gmap Z Z) a bs :
  (∀ i : nat, (i < length bs)%nat → is_Some (m !! (a + Z.of_nat i))) →
  ∃ m', write_bytes m a bs = Some m'
        ∧ (∀ i : nat, (i < length bs)%nat → m' !! (a + Z.of_nat i) = bs !! i)
        ∧ (∀ j, ¬ (a ≤ j < a + Z.of_nat (length bs)) → m' !! j = m !! j).
Proof.
  revert m a. induction bs as [|b bs IH]; intros m a Hv.
  - exists m. cbn. split; [done|]. split; [intros i Hi; lia|done].
  - destruct (Hv O ltac:(cbn; lia)) as [b0 Hb0]. rewrite Z.add_0_r in Hb0.
    destruct (IH (<[a := b]> m) (a + 1)) as (m' & Hw & Hin & Hout).
    { intros i Hi. apply lookup_insert_is_Some'. right.
      replace (a + 1 + Z.of_nat i) with (a + Z.of_nat (S i)) by lia.
      apply Hv. cbn. lia. }
    exists m'. cbn [write_bytes]. rewrite Hb0. split; [exact Hw|]. split.
    + intros [|i] Hi.
      * rewrite Z.add_0_r. rewrite Hout by lia. by rewrite lookup_insert_eq.
      * replace (a + Z.of_nat (S i)) with (a + 1 + Z.of_nat i) by lia.
        apply Hin. cbn in Hi. lia.
    + intros j Hj. cbn [length] in Hj. rewrite Hout by lia.
      apply lookup_insert_ne. lia.
Qed.

Lemma valid_buffer_nat (m : gmap Z Z) a n :
  valid_buffer m a n →
  ∀ i : nat, (i < N.to_nat n)%nat → is_Some (m !! (a + Z.of_nat i)).
Proof. intros Hv i Hi. apply Hv. lia. Qed.

(** What the copy primitive does on valid buffers that do not overlap. *)
Lemma memcpy_spec (m : gmap Z Z) dest src n :
  valid_buffer m dest n → valid_buffer m src n → overlap dest src n = false →
  ∃ m', memcpy dest src n m = Some (dest, m')
        ∧ (∀ i, 0 ≤ i < Z.of_N n → m' !! (dest + i) = m !! (src + i))
        ∧ (∀ a, ¬ (dest ≤ a < dest + Z.of_N n) → m' !! a = m !! a).
Proof.
  intros Hd Hs Hov. unfold memcpy. rewrite Hov.
  destruct (read_bytes_spec m src (N.to_nat n) (valid_buffer_nat _ _ _ Hs))
    as (bs & Hr & Hlen & Hnth).
  destruct (write_bytes_spec m dest bs) as (m' & Hw & Hin & Hout).
  { rewrite Hlen. by apply valid_buffer_nat. }
  exists m'. rewrite Hr. cbn. rewrite Hw. cbn. split; [done|]. split.
  - intros i Hi. replace i with (Z.of_nat (Z.to_nat i)) by lia.
    rewrite Hin by lia. apply Hnth. lia.
  - intros a Ha. apply Hout. lia.
Qed.

(** What the fill primitive does on a valid buffer. *)
Lemma memset_spec (m : gmap Z Z) dest c n :
  valid_buffer m dest n →
  ∃ m', memset dest c n m = Some (dest, m')
        ∧ (∀ i, 0 ≤ i < Z.of_N n → m' !! (dest + i) = Some (to_uchar c))
        ∧ (∀ a, ¬ (dest ≤ a < dest + Z.of_N n) → m' !! a = m !! a).
Proof.
  intros Hd. unfold memset.
  destruct (write_bytes_spec m dest (replicate (N.to_nat n) (to_uchar c)))
    as (m' & Hw & Hin & Hout).
  { rewrite length_replicate. by apply valid_buffer_nat. }
  rewrite length_replicate in Hin, Hout.
  exists m'. rewrite Hw. cbn. split; [done|]. split.
  - intros i Hi. replace i with (Z.of_nat (Z.to_nat i)) by lia.
    rewrite Hin by lia. apply lookup_replicate_2. lia.
  - intros a Ha. apply Hout. lia.
Qed.

(** In program text, an alias followed by anything is replaced as the
    primitive's name followed by the same. *)
Lemma alias_text env alias target fuel rest :
  alias ≠ target →
  env !! alias = Some (ObjLike [Id target]) → env !! target = None →
  expand_tokens env (S fuel) (Id alias :: rest)
  = expand_tokens env fuel (Id target :: rest).
Proof.
  intros Hne Ha Ht. unfold expand_tokens. cbn [fresh_tokens map].
  rewrite (expand_obj env _ alias [] [Id target]) by (done || apply not_elem_of_nil).
  cbn [hsadd fresh_tokens map app fst snd].
  destruct fuel as [|f]; [reflexivity|].
  rewrite !expand_inert by done. by rewrite !map_fst_cons_fmap.
Qed.

(** C6. The text [hmemcpy] is replaced by [memcpy], so a call of the alias
    is the call of the copy primitive with the same arguments.  On valid
    buffers that do not overlap it succeeds as that primitive does: it
    returns [dest], the [n] bytes at [dest] are afterwards the bytes that
    were at [src], and no other byte changes. *)
Theorem hmemcpy_refines_memcpy (m : gmap Z Z) (dest src : Z) (n : N) :
  valid_buffer m dest n → valid_buffer m src n → overlap dest src n = false →
  (∀ fuel rest,
     expand_tokens win32_env (S fuel) (Id "hmemcpy" :: rest)
     = expand_tokens win32_env fuel (Id "memcpy" :: rest))
  ∧ hmemcpy dest src n m = memcpy dest src n m
  ∧ ∃ m', hmemcpy dest src n m = Some (dest, m')
          ∧ (∀ i, 0 ≤ i < Z.of_N n → m' !! (dest + i) = m !! (src + i))
          ∧ (∀ a, ¬ (dest ≤ a < dest + Z.of_N n) → m' !! a = m !! a).
Proof.
  intros Hd Hs Hov. split; [|split; [reflexivity|]].
  - intros fuel rest. apply alias_text; [done| |]; by vm_compute.
  - unfold hmemcpy. by apply memcpy_spec.
Qed.

Lemma hmemcpy_refines_memcpy_witness :
  (∀ fuel rest,
     expand_tokens win32_env (S fuel) (Id "hmemcpy" :: rest)
     = expand_tokens win32_env fuel (Id "memcpy" :: rest))
  ∧ hmemcpy 200 100 3 sample_memory = memcpy 200 100 3 sample_memory
  ∧ ∃ m', hmemcpy 200 100 3 sample_memory = Some (200, m')
          ∧ (∀ i, 0 ≤ i < Z.of_N 3 → m' !! (200 + i) = sample_memory !! (100 + i))
          ∧ (∀ a, ¬ (200 ≤ a < 200 + Z.of_N 3) → m' !! a = sample_memory !! a).
Proof.
  apply (hmemcpy_refines_memcpy sample_memory 200 100 3).
  - intros i Hi. assert (i = 0 ∨ i = 1 ∨ i = 2) as [-> | [-> | ->]] by lia; by eexists.
  - intros i Hi. assert (i = 0 ∨ i = 1 ∨ i = 2) as [-> | [-> | ->]] by lia; by eexists.
  - reflexivity.
Defined.

(** C7. The text [hmemset] is replaced by [memset].  On a valid buffer the
    call returns [dest] and each of the [n] bytes at [dest] is afterwards
    the fill value converted to [unsigned char], which is the fill value
    itself when that is a byte; no other byte changes. *)
Theorem hmemset_fills (m : gmap Z Z) (dest c : Z) (n : N) :
  valid_buffer m dest n →
  (∀ fuel rest,
     expand_tokens win32_env (S fuel) (Id "hmemset" :: rest)
     = expand_tokens win32_env fuel (Id "memset" :: rest))
  ∧ hmemset dest c n m = memset dest c n m
  ∧ ∃ m', hmemset dest c n m = Some (dest, m')
          ∧ (∀ i, 0 ≤ i < Z.of_N n → m' !! (dest + i) = Some (to_uchar c))
          ∧ (0 ≤ c < 256 → ∀ i, 0 ≤ i < Z.of_N n → m' !! (dest + i) = Some c)
          ∧ (∀ a, ¬ (dest ≤ a < dest + Z.of_N n) → m' !! a = m !! a).
Proof.
  intros Hd. split; [|split; [reflexivity|]].
  - intros fuel rest. apply alias_text; [done| |]; by vm_compute.
  - unfold hmemset. destruct (memset_spec m dest c n Hd) as (m' & Hm & Hin & Hout).
    exists m'. split; [done|]. split; [done|]. split; [|done].
    intros Hc i Hi. rewrite Hin by done. unfold to_uchar.
    by rewrite Z.mod_small.
Qed.

Lemma hmemset_fills_witness :
  (∀ fuel rest,
     expand_tokens win32_env (S fuel) (Id "hmemset" :: rest)
     = expand_tokens win32_env fuel (Id "memset" :: rest))
  ∧ hmemset 100 255 3 sample_memory = memset 100 255 3 sample_memory
  ∧ ∃ m', hmemset 100 255 3 sample_memory = Some (100, m')
          ∧ (∀ i, 0 ≤ i < Z.of_N 3 → m' !! (100 + i) = Some (to_uchar 255))
          ∧ (0 ≤ 255 < 256 → ∀ i, 0 ≤ i < Z.of_N 3 → m' !! (100 + i) = Some 255)
          ∧ (∀ a, ¬ (100 ≤ a < 100 + Z.of_N 3) → m' !! a = sample_memory !! a).
Proof.
  apply (hmemset_fills sample_memory 100 255 3).
  intros i Hi. assert (i = 0 ∨ i = 1 ∨ i = 2) as [-> | [-> | ->]] by lia; by eexists.
Defined.

(** ** The drawing cursor: [MMoveTo] *)

Lemma leave_enter dcs' (l : list (option POINT)) a v :
  leave_scope (World dcs' (<[a := v]> (l ++ [None]))) = World dcs' (take (length l) (<[a := v]> (l ++ [None]))).
Proof.
  unfold leave_scope. cbn [autos dcs]. rewrite length_insert, length_app.
  cbn [length]. replace (length l + 1 - 1)%nat with (length l) by lia.
  reflexivity.
Qed.

Lemma take_written (l : list (option POINT)) v :
  take (length l) (<[length l := v]> (l ++ [None])) = l.
Proof. rewrite take_insert_ge by lia. by rewrite take_app_length. Qed.

(** The wrapper on the host's primitive, in closed form. *)
Lemma MMoveTo_MoveToEx hdc x y w :
  MMoveTo MoveToEx hdc x y w
  = match dcs w !! hdc with
    | None => (0, w)
    | Some dc => (1, World (<[hdc := set_pos (Point x y) dc]> (dcs w)) (autos w))
    end.
Proof.
  unfold MMoveTo, enter_scope, MoveToEx. cbn [dcs autos].
  destruct (dcs w !! hdc) as [dc|].
  - cbn [store_point dcs autos]. rewrite leave_enter, take_written. reflexivity.
  - unfold leave_scope. cbn [dcs autos]. rewrite length_app. cbn [length].
    replace (length (autos w) + 1 - 1)%nat with (length (autos w)) by lia.
    rewrite take_app_length. by destruct w.
Qed.

(** C1. [MMoveTo] invokes the primitive once, with the handle, the two
    coordinates and the address of its own automatic [POINT], an object
    that does not exist before the call, and returns the primitive's result
    code as it is, whatever the primitive is.  On the host's primitive and
    a handle that names a device context, the code is nonzero, the current
    position of that surface is (x, y) afterwards, and a line drawn next
    starts at (x, y). *)
Theorem MMoveTo_forwards (prim : primitive) (hdc x y : Z) (w : world) :
  let pt := length (autos w) in
  let w0 := World (dcs w) (autos w ++ [None]) in
  let call := prim hdc x y (Some pt) w0 in
  autos w !! pt = None
  ∧ autos w0 !! pt = Some None
  ∧ MMoveTo prim hdc x y w = (call.1, leave_scope call.2)
  ∧ (∀ dc x' y',
       dcs w !! hdc = Some dc →
       let after := MMoveTo MoveToEx hdc x y w in
       after.1 = 1
       ∧ position hdc after.2 = Some (Point x y)
       ∧ (dc_lines <$> dcs (LineTo hdc x' y' after.2).2 !! hdc)
         = Some (dc_lines dc ++ [(Point x y, Point x' y')])).
Proof.
  intros pt w0 call. split; [|split; [|split]].
  - apply lookup_ge_None. subst pt. lia.
  - subst pt w0. cbn [autos]. by rewrite lookup_app_r, Nat.sub_diag by lia.
  - subst call w0 pt. unfold MMoveTo, enter_scope.
    by destruct (prim hdc x y _ _).
  - intros dc x' y' Hdc after. subst after. rewrite MMoveTo_MoveToEx, Hdc.
    cbn [fst snd]. split; [done|]. split.
    + unfold position. cbn [dcs]. by rewrite lookup_insert_eq.
    + unfold LineTo. cbn [dcs]. rewrite lookup_insert_eq. cbn [snd dcs set_pos dc_pos dc_lines].
      by rewrite lookup_insert_eq.
Qed.

Lemma MMoveTo_forwards_witness :
  let after := MMoveTo MoveToEx 7 30 40 sample_world in
  after.1 = 1
  ∧ position 7 after.2 = Some (Point 30 40)
  ∧ (dc_lines <$> dcs (LineTo 7 50 60 after.2).2 !! 7)
    = Some (dc_lines sample_dc ++ [(Point 30 40, Point 50 60)]).
Proof.
  apply (MMoveTo_forwards MoveToEx 7 30 40 sample_world). reflexivity.
Defined.

(** C10. On the host's primitive, the call changes nothing but the current
    position of the surface [hdc]: the automatic objects alive afterwards
    are those alive before, every other surface is as it was, and the
    surface itself differs at most in its position, which is (x, y).  The
    previous position does not flow anywhere: whatever it was, the result
    code and the world after the call are the same. *)
Theorem MMoveTo_frame (hdc x y : Z) (w : world) :
  let w' := (MMoveTo MoveToEx hdc x y w).2 in
  autos w' = autos w
  ∧ (∀ h, h ≠ hdc → dcs w' !! h = dcs w !! h)
  ∧ dcs w' !! hdc = set_pos (Point x y) <$> dcs w !! hdc
  ∧ (dc_pen <$> dcs w' !! hdc) = (dc_pen <$> dcs w !! hdc)
  ∧ (dc_brush <$> dcs w' !! hdc) = (dc_brush <$> dcs w !! hdc)
  ∧ (dc_lines <$> dcs w' !! hdc) = (dc_lines <$> dcs w !! hdc)
  ∧ (∀ p, MMoveTo MoveToEx hdc x y (with_position hdc p w)
          = MMoveTo MoveToEx hdc x y w).
Proof.
  intros w'. subst w'. rewrite MMoveTo_MoveToEx.
  assert (Hat : dcs (match dcs w !! hdc with
                     | None => (0, w)
                     | Some dc => (1, World (<[hdc := set_pos (Point x y) dc]> (dcs w)) (autos w))
                     end).2 !! hdc = set_pos (Point x y) <$> dcs w !! hdc).
  { destruct (dcs w !! hdc) as [dc|] eqn:Hdc; cbn [snd dcs fmap option_fmap option_map].
    - by rewrite lookup_insert_eq.
    - done. }
  split; [by destruct (dcs w !! hdc)|]. split; [|split; [exact Hat|]].
  - intros h Hh. destruct (dcs w !! hdc) as [dc|]; [|done].
    cbn [snd dcs]. by rewrite lookup_insert_ne.
  - rewrite Hat. repeat split; try by destruct (dcs w !! hdc).
    intros p. rewrite !MMoveTo_MoveToEx. unfold with_position. cbn [dcs autos].
    rewrite lookup_alter_eq. destruct (dcs w !! hdc) as [dc|] eqn:Hdc; cbn.
    + f_equal. f_equal. apply map_eq. intros h.
      destruct (decide (h = hdc)) as [->|Hne].
      * by rewrite !lookup_insert_eq.
      * by rewrite !lookup_insert_ne, lookup_alter_ne.
    + f_equal. destruct w as [d a]. cbn in *. f_equal.
      apply map_eq. intros h. destruct (decide (h = hdc)) as [->|Hne].
      * by rewrite lookup_alter_eq, Hdc.
      * by rewrite lookup_alter_ne.
Qed.

Lemma MMoveTo_frame_witness :
  let w' := (MMoveTo MoveToEx 7 30 40 sample_world).2 in
  autos w' = autos sample_world
  ∧ dcs w' !! 8 = dcs sample_world !! 8
  ∧ (dc_pen <$> dcs w' !! 7) = Some 10
  ∧ MMoveTo MoveToEx 7 30 40 (with_position 7 (Point 5 6) sample_world)
    = MMoveTo MoveToEx 7 30 40 sample_world.
Proof.
  destruct (MMoveTo_frame 7 30 40 sample_world) as (H1 & H2 & _ & H4 & _ & _ & H7).
  split; [exact H1|]. split; [apply H2; lia|]. split; [|apply H7].
  etransitivity; [exact H4|reflexivity].
Defined.

(** * Further properties of the header *)

(** ** The first reading of the header *)

Lemma expand_inert_list env ts fuel :
  inert_in env ts = true → (length ts < fuel)%nat →
  expand env fuel (fresh_tokens ts) = Some (fresh_tokens ts).
Proof.
  revert fuel. induction ts as [|t ts IH]; intros fuel Hin Hlen.
  - destruct fuel; [lia|reflexivity].
  - destruct fuel as [|fuel]; [cbn in Hlen; lia|].
    cbn [inert_in forallb] in Hin. apply andb_prop in Hin as [Ht Hts].
    cbn [fresh_tokens map]. fold (fresh_tokens ts).
    assert (Hrest : expand env fuel (fresh_tokens ts) = Some (fresh_tokens ts)).
    { apply IH; [exact Hts|cbn in Hlen; lia]. }
    destruct t as [n | z | str | q].
    + apply bool_decide_eq_true_1 in Ht. by rewrite expand_inert, Hrest.
    + by rewrite expand_other, Hrest.
    + by rewrite expand_other, Hrest.
    + by rewrite expand_other, Hrest.
Qed.

(** Text without macro names is its own replacement. *)
Lemma expand_inert_text env ts fuel :
  inert_in env ts = true → (length ts < fuel)%nat →
  expand_tokens env fuel ts = Some ts.
Proof.
  intros Hin Hlen. unfold expand_tokens. rewrite expand_inert_list by done.
  cbn. by rewrite fst_fresh_tokens.
Qed.

Lemma inert_in_app env ts1 ts2 :
  inert_in env (ts1 ++ ts2) = inert_in env ts1 && inert_in env ts2.
Proof. apply forallb_app. Qed.

Lemma inert_in_union (d1 d2 : gmap string macro) ts :
  inert_in d1 ts = true → inert_in d2 ts = true → inert_in (d1 ∪ d2) ts = true.
Proof.
  unfold inert_in. rewrite !forallb_forall. intros H1 H2 t Ht.
  specialize (H1 t Ht). specialize (H2 t Ht). destruct t; try done.
  apply bool_decide_eq_true_1 in H1, H2. apply bool_decide_eq_true_2.
  by apply lookup_union_None_2.
Qed.

Section FirstReading.
Context (sys : string → pstate → pstate) (ho : bool) (budget : nat).

Lemma defined_PragmaOnce file n st :
  defined n (process_line sys ho budget file PragmaOnce st) = defined n st.
Proof. cbn [process_line]. by destruct ho. Qed.

(** When the header is read and its guard is not defined, its lines 14 to
    62 are processed in the state the prologue leaves. *)
Lemma include_shim_unfold st :
  ho && bool_decide (file_name ∈ once st) = false →
  defined guard_name st = false →
  include_shim sys ho budget st
  = process_lines sys ho budget file_name
      ([IfDef "__cplusplus" [Text [Id "extern"; Str "C"; Punct LBrace]]]
       ++ bindings ++
       [FunDef MMoveTo_text; IfDef "__cplusplus" [Text [Punct RBrace]]])
      (prologue_state sys ho budget st).
Proof.
  intros Hskip Hg. unfold include_shim, include. rewrite Hskip.
  unfold port1632_h. rewrite process_lines_cons. cbn [process_lines].
  rewrite process_line_IfNDef, defined_PragmaOnce, Hg.
  unfold guarded_part, prologue_state. cbn [app].
  rewrite !process_lines_cons. reflexivity.
Qed.

Lemma shim_macros_not_cplusplus : shim_macros !! "__cplusplus" = None.
Proof. reflexivity. Qed.

(** The macro table after the first reading. *)
Lemma include_shim_defs st :
  ho && bool_decide (file_name ∈ once st) = false →
  defined guard_name st = false →
  defs (include_shim sys ho budget st)
  = defs (prologue_state sys ho budget st) ∪ shim_macros.
Proof.
  intros Hskip Hg. rewrite include_shim_unfold by done.
  rewrite !process_lines_app, process_bindings. cbn [process_lines].
  rewrite defs_IfDef_Text, defs_FunDef. cbn [defs with_defs].
  by rewrite defs_IfDef_Text.
Qed.
End FirstReading.

(** X1. When the header is read for the first time (its guard is not
    defined and the file is not skipped), the macro table afterwards is the
    table the system headers left, extended by the header's seven
    definitions where the name was free; whatever the system headers did,
    each of the seven legacy names is defined afterwards. *)
Theorem legacy_names_defined sys ho budget (st : pstate) name :
  ho && bool_decide (file_name ∈ once st) = false →
  defined guard_name st = false →
  name ∈ shim_names →
  defs (include_shim sys ho budget st) = defs (prologue_state sys ho budget st) ∪ shim_macros
  ∧ is_Some (defs (include_shim sys ho budget st) !! name).
Proof.
  intros Hskip Hg Hname.
  pose proof (include_shim_defs sys ho budget st Hskip Hg) as Hd. split; [exact Hd|].
  rewrite Hd. apply lookup_union_is_Some. right. by apply shim_macros_lookup.
Qed.

Lemma legacy_names_defined_witness :
  defs (include_shim win32_header false 64 empty_state)
  = defs (prologue_state win32_header false 64 empty_state) ∪ shim_macros
  ∧ is_Some (defs (include_shim win32_header false 64 empty_state) !! "hmemcpy").
Proof.
  apply (legacy_names_defined win32_header false 64 empty_state "hmemcpy").
  - reflexivity.
  - reflexivity.
  - unfold shim_names. rewrite !elem_of_cons. tauto.
Defined.

(** X4. When the guard macro is already defined, by an earlier reading or
    by anyone else, the header contributes nothing: no macro, no function,
    no text and no diagnostic, and the system headers are not read. *)
Theorem guard_defined_skips sys ho budget (st : pstate) :
  defined guard_name st = true →
  let fin := include_shim sys ho budget st in
  defs fin = defs st ∧ funs fin = funs st ∧ text fin = text st
  ∧ diags fin = diags st.
Proof.
  intros Hg fin. subst fin. unfold include_shim, include.
  destruct (ho && bool_decide (file_name ∈ once st)); [done|].
  unfold port1632_h. rewrite process_lines_cons. cbn [process_lines].
  rewrite process_line_IfNDef, defined_PragmaOnce, Hg.
  cbn [process_line]. by destruct ho.
Qed.

Lemma guard_defined_skips_witness :
  defs (include_shim win32_header false 64
          (define guard_name (ObjLike []) empty_state))
  = defs (define guard_name (ObjLike []) empty_state).
Proof.
  apply (guard_defined_skips win32_header false 64
           (define guard_name (ObjLike []) empty_state)).
  reflexivity.
Defined.

(** ** Invocations of the function-like macros *)

(** X5. [MMain], [max] and [min] are function-like: where one of these
    names is not followed by an opening parenthesis it is not an invocation
    and stays as it is, so the names remain usable as ordinary
    identifiers. *)
Theorem function_like_needs_parenthesis env fuel name m (t : token) rest :
  m ∈ [MMain_macro; max_macro; min_macro] →
  env !! name = Some m →
  t ≠ Punct LParen →
  expand_tokens env (S fuel) (Id name :: t :: rest)
  = cons (Id name) <$> expand_tokens env fuel (t :: rest)
  ∧ expand_tokens env (S (S fuel)) [Id name] = Some [Id name].
Proof.
  intros Hm Henv Ht. unfold expand_tokens. cbn [fresh_tokens map].
  assert (Hfun : ∃ ps body, m = FunLike ps body).
  { rewrite !elem_of_cons, elem_of_nil in Hm.
    destruct Hm as [-> | [-> | [-> | []]]]; eexists _, _; reflexivity. }
  destruct Hfun as (ps & body & ->). split.
  - cbn [expand]. rewrite bool_decide_eq_false_2 by apply not_elem_of_nil.
    rewrite Henv.
    destruct t as [n | z | str | []]; try congruence;
      apply (map_fst_cons_fmap (Id name, [])).
  - cbn [expand]. rewrite bool_decide_eq_false_2 by apply not_elem_of_nil.
    rewrite Henv. reflexivity.
Qed.

Lemma function_like_needs_parenthesis_witness :
  expand_tokens win32_env 9 [Id "max"; Punct Semi]
  = cons (Id "max") <$> expand_tokens win32_env 8 [Punct Semi]
  ∧ expand_tokens win32_env 9 [Id "max"] = Some [Id "max"].
Proof.
  apply (function_like_needs_parenthesis win32_env 7 "max" max_macro (Punct Semi) []).
  - rewrite !elem_of_cons. tauto.
  - by vm_compute.
  - discriminate.
Defined.

Lemma collect_identifiers a args acc rest :
  collect_args O [] acc
    (fresh_tokens (comma_separated (a :: args) ++ Punct RParen :: rest))
  = Some (reverse acc ++ map (λ x, [(Id x, [])]) (a :: args), [], fresh_tokens rest).
Proof.
  revert a acc. induction args as [|b args IH]; intros a acc.
  - cbn [comma_separated app fresh_tokens map collect_args].
    rewrite (reverse_cons acc). reflexivity.
  - change (comma_separated (a :: b :: args))
      with (Id a :: Punct Comma :: comma_separated (b :: args)).
    cbn [app fresh_tokens map collect_args].
    change (map (λ t : token, (t, [])) (comma_separated (b :: args) ++ Punct RParen :: rest))
      with (fresh_tokens (comma_separated (b :: args) ++ Punct RParen :: rest)).
    rewrite IH, (reverse_cons acc), <- app_assoc. reflexivity.
Qed.

(** X6. An invocation of [MMain] with other than four arguments, or of
    [max] or [min] with other than two, has no replacement: it is an
    error, at every fuel, whatever follows it. *)
Theorem wrong_arity_is_error env fuel name m k (args : list string) rest :
  m ∈ [MMain_macro; max_macro; min_macro] →
  env !! name = Some m →
  macro_arity m = Some k →
  Nat.max 1 (length args) ≠ k →
  expand_tokens env fuel (call_tokens name args ++ rest) = None.
Proof.
  intros Hm Henv Hk Hlen. destruct fuel as [|fuel]; [reflexivity|].
  assert (Hfun : ∃ p ps body, m = FunLike (p :: ps) body).
  { rewrite !elem_of_cons, elem_of_nil in Hm.
    destruct Hm as [-> | [-> | [-> | []]]]; eexists _, _, _; reflexivity. }
  destruct Hfun as (p & ps & body & ->). cbn [macro_arity] in Hk.
  injection Hk as <-.
  unfold expand_tokens, call_tokens. cbn [app]. rewrite <- app_assoc.
  cbn [app fresh_tokens map expand].
  rewrite bool_decide_eq_false_2 by apply not_elem_of_nil. rewrite Henv.
  change (map (λ t : token, (t, [])) (comma_separated args ++ Punct RParen :: rest))
    with (fresh_tokens (comma_separated args ++ Punct RParen :: rest)).
  destruct args as [|a args].
  - cbn. rewrite bool_decide_eq_false_2; [reflexivity|]. cbn in Hlen. cbn. lia.
  - rewrite collect_identifiers. cbn [mbind option_bind reverse app normalise_args].
    rewrite bool_decide_eq_false_2; [reflexivity|].
    change (reverse [] ++ map (λ x : string, [(Id x, [])]) (a :: args))
      with (map (λ x : string, [(Id x, [] : list string)]) (a :: args)).
    rewrite length_map. cbn [length] in *. lia.
Qed.

Lemma wrong_arity_is_error_witness :
  expand_tokens win32_env 50
    (call_tokens "MMain" ["hInstance"; "hPrevInstance"; "lpCmdLine"]
       ++ [Punct RBrace]) = None.
Proof.
  apply (wrong_arity_is_error win32_env 50 "MMain" MMain_macro 4%nat).
  - rewrite !elem_of_cons. tauto.
  - by vm_compute.
  - reflexivity.
  - cbn. lia.
Defined.

Lemma MMain_call_tokens h p c n :
  MMain_call h p c n = call_tokens "MMain" [h; p; c; n].
Proof. reflexivity. Qed.

(** ** Operands with side effects, and nesting *)

(** X8. The operand that [max] or [min] selects is evaluated twice and the
    other one once.  When the first operand compares strictly greater, the
    value of [max(a, b)] is that of a second evaluation of [a]; with
    [x++] as the selected operand the macro yields [x + 1], not the value
    [x] that was compared, and leaves [x] two higher, while as the operand
    not selected [x++] is evaluated once. *)
Theorem selected_operand_evaluated_twice {S : Type} (a b : operand) (s : S) (x y : Z) :
  ((a s).1 > (b (a s).2).1 → max a b s = a (b (a s).2).2)
  ∧ ((a s).1 < (b (a s).2).1 → min a b s = a (b (a s).2).2)
  ∧ (y < x → max post_increment (value y) x = (x + 1, x + 2))
  ∧ (x < y → min post_increment (value y) x = (x + 1, x + 2))
  ∧ (x ≤ y → max post_increment (value y) x = (y, x + 1)).
Proof.
  unfold max, min, post_increment, value.
  destruct (a s) as [va s1] eqn:Ha. destruct (b s1) as [vb s2] eqn:Hb.
  cbn [fst snd]. rewrite Hb. cbn [fst snd].
  repeat split; intros H.
  - by rewrite bool_decide_eq_true_2.
  - by rewrite bool_decide_eq_true_2.
  - rewrite bool_decide_eq_true_2 by lia. f_equal. lia.
  - rewrite bool_decide_eq_true_2 by lia. f_equal. lia.
  - by rewrite bool_decide_eq_false_2 by lia.
Qed.

Lemma selected_operand_evaluated_twice_witness :
  max post_increment (value 3) 5 = (6, 7)
  ∧ max (logged "a" 4) (logged "b" 3) [] = (4, ["a"; "b"; "a"]).
Proof.
  destruct (selected_operand_evaluated_twice post_increment (value 3) 5 5 3)
    as (_ & _ & H3 & _).
  destruct (selected_operand_evaluated_twice (logged "a" 4) (logged "b" 3) [] 0 0)
    as (H1 & _).
  split; [apply H3; lia|]. etransitivity; [apply H1; cbn; lia|reflexivity].
Defined.



(** ** [MMoveTo]: failure, the automatic object, successive calls *)

(** X10. On a handle that names no device context the host primitive
    fails, and [MMoveTo] returns its zero and leaves the world exactly as
    it was; the automatic [POINT] is released on this path too. *)
Theorem MMoveTo_invalid_handle (hdc x y : Z) (w : world) :
  dcs w !! hdc = None → MMoveTo MoveToEx hdc x y w = (0, w).
Proof. intros Hdc. by rewrite MMoveTo_MoveToEx, Hdc. Qed.

Lemma MMoveTo_invalid_handle_witness :
  MMoveTo MoveToEx 8 30 40 sample_world = (0, sample_world).
Proof. apply MMoveTo_invalid_handle. reflexivity. Defined.

Lemma MoveToEx_keeps_to_pointer : keeps_to_pointer MoveToEx.
Proof.
  intros hdc x y p w. unfold MoveToEx.
  destruct (dcs w !! hdc) as [dc|]; cbn [snd autos store_point]; [|done].
  split; [apply length_insert|]. intros i Hi. by apply list_lookup_insert_ne.
Qed.

(** X11. Whatever primitive the call is resolved to, as long as it writes
    to no automatic object but the one it is given the address of and
    neither creates nor destroys one, the automatic objects alive after
    [MMoveTo] are exactly those alive before: the wrapper's own [POINT] is
    gone and nothing of the caller is touched. *)
Theorem MMoveTo_releases_its_point (prim : primitive) (hdc x y : Z) (w : world) :
  keeps_to_pointer prim →
  autos (MMoveTo prim hdc x y w).2 = autos w.
Proof.
  intros Hprim. unfold MMoveTo, enter_scope.
  destruct (Hprim hdc x y (length (autos w)) (World (dcs w) (autos w ++ [None])))
    as [Hlen Hother].
  destruct (prim hdc x y (Some (length (autos w))) (World (dcs w) (autos w ++ [None])))
    as [r w1].
  cbn [snd autos leave_scope] in *. rewrite length_app in Hlen. cbn [length] in Hlen.
  rewrite Hlen. replace (length (autos w) + 1 - 1)%nat with (length (autos w)) by lia.
  apply list_eq. intros i. destruct (decide (i < length (autos w))%nat) as [Hi|Hi].
  - rewrite lookup_take_lt by done. rewrite Hother by lia. by rewrite lookup_app_l.
  - rewrite lookup_take_ge by lia. symmetry. apply lookup_ge_None. lia.
Qed.

Lemma MMoveTo_releases_its_point_witness :
  autos (MMoveTo MoveToEx 7 30 40 sample_world).2 = autos sample_world.
Proof.
  apply (MMoveTo_releases_its_point MoveToEx 7 30 40 sample_world
           MoveToEx_keeps_to_pointer).
Defined.

(** X12. Successive calls on the host primitive: of two moves of the same
    surface the second one decides, the outcome being that of the second
    move alone, and moves of different surfaces do not interfere, the world
    after both being the same in either order. *)
Theorem MMoveTo_successive (h1 h2 x1 y1 x2 y2 : Z) (w : world) :
  MMoveTo MoveToEx h1 x2 y2 (MMoveTo MoveToEx h1 x1 y1 w).2
  = MMoveTo MoveToEx h1 x2 y2 w
  ∧ (h1 ≠ h2 →
     (MMoveTo MoveToEx h2 x2 y2 (MMoveTo MoveToEx h1 x1 y1 w).2).2
     = (MMoveTo MoveToEx h1 x1 y1 (MMoveTo MoveToEx h2 x2 y2 w).2).2).
Proof.
  rewrite !MMoveTo_MoveToEx. split.
  - destruct (dcs w !! h1) as [dc|] eqn:H1; cbn [snd dcs autos].
    + rewrite lookup_insert_eq. by rewrite insert_insert_eq.
    + by rewrite H1.
  - intros Hne.
    destruct (dcs w !! h1) as [dc1|] eqn:H1, (dcs w !! h2) as [dc2|] eqn:H2;
      cbn [snd dcs autos];
      rewrite ?lookup_insert_ne by done; rewrite ?H1, ?H2; cbn [snd dcs autos];
      try reflexivity.
    by rewrite insert_insert_ne.
Qed.

Lemma MMoveTo_successive_witness :
  MMoveTo MoveToEx 7 50 60 (MMoveTo MoveToEx 7 30 40 sample_world).2
  = MMoveTo MoveToEx 7 50 60 sample_world
  ∧ (MMoveTo MoveToEx 8 50 60 (MMoveTo MoveToEx 7 30 40 sample_world).2).2
    = (MMoveTo MoveToEx 7 30 40 (MMoveTo MoveToEx 8 50 60 sample_world).2).2.
Proof.
  destruct (MMoveTo_successive 7 8 30 40 50 60 sample_world) as [H1 H2].
  split; [exact H1|]. apply H2. lia.
Defined.

(** ** The program text of the first reading *)

Lemma define_function_MMoveTo st :
  defs (define_function MMoveTo_text st) = defs st
  ∧ text (define_function MMoveTo_text st) = text st ++ MMoveTo_text
  ∧ funs (define_function MMoveTo_text st)
    = (if bool_decide ("MMoveTo" ∈ funs st) then funs st else {["MMoveTo"]} ∪ funs st)
  ∧ diags (define_function MMoveTo_text st)
    = (if bool_decide ("MMoveTo" ∈ funs st) && negb (defined "__cplusplus" st)
       then diags st ++ [FunctionRedefined "MMoveTo"] else diags st).
Proof.
  unfold define_function.
  change (declared_name MMoveTo_text) with (Some "MMoveTo").
  destruct (decide ("MMoveTo" ∈ funs st)) as [Hin|Hin].
  - rewrite !bool_decide_eq_true_2 by done.
    destruct (defined "__cplusplus" st); repeat split.
  - rewrite !bool_decide_eq_false_2 by done. repeat split.
Qed.

Section FirstReadingText.
Context (sys : string → pstate → pstate) (ho : bool) (budget : nat).

Lemma replaced_inert (on_text : list token → pstate → pstate) ts st :
  inert_in (defs st) ts = true → (length ts < budget)%nat →
  replaced budget on_text ts st = on_text ts st.
Proof. intros Hin Hlen. unfold replaced. by rewrite expand_inert_text. Qed.

(** Text, functions and diagnostics after the first reading, where no
    identifier of lines 15 and 54 to 58 names a macro. *)
Lemma include_shim_fields st :
  ho && bool_decide (file_name ∈ once st) = false →
  defined guard_name st = false →
  (length (shim_text true) < budget)%nat →
  inert_in (defs (prologue_state sys ho budget st)) (shim_text true) = true →
  let pre := prologue_state sys ho budget st in
  let fin := include_shim sys ho budget st in
  text fin = text pre ++ shim_text (defined "__cplusplus" pre)
  ∧ funs fin = (if bool_decide ("MMoveTo" ∈ funs pre) then funs pre
                else {["MMoveTo"]} ∪ funs pre)
  ∧ diags fin = (if bool_decide ("MMoveTo" ∈ funs pre) && negb (defined "__cplusplus" pre)
                 then diags pre ++ [FunctionRedefined "MMoveTo"] else diags pre).
Proof.
  intros Hskip Hg Hlen Hin pre fin. subst fin. fold pre in Hin.
  change (length (shim_text true)) with 35%nat in Hlen.
  unfold shim_text in Hin. rewrite !inert_in_app in Hin.
  apply andb_prop in Hin as [Hopen Hin]. apply andb_prop in Hin as [Hfun _].
  rewrite include_shim_unfold by done. fold pre.
  rewrite !process_lines_app, process_bindings. cbn [process_lines].
  rewrite !process_line_IfDef. cbn [process_lines process_line].
  set (s1 := if defined "__cplusplus" pre
             then replaced budget emit [Id "extern"; Str "C"; Punct LBrace] pre
             else pre).
  assert (H1 : defs s1 = defs pre ∧ funs s1 = funs pre ∧ diags s1 = diags pre
               ∧ text s1 = text pre ++ (if defined "__cplusplus" pre
                                        then [Id "extern"; Str "C"; Punct LBrace]
                                        else [])).
  { subst s1. destruct (defined "__cplusplus" pre).
    - rewrite replaced_inert by (done || cbn; lia). done.
    - by rewrite app_nil_r. }
  destruct H1 as (Hd1 & Hf1 & Hg1 & Ht1). clearbody s1.
  set (s2 := with_defs (defs s1 ∪ shim_macros) s1).
  assert (Hc2 : defined "__cplusplus" s2 = defined "__cplusplus" pre).
  { subst s2. unfold defined. cbn [defs with_defs]. rewrite Hd1.
    apply bool_decide_ext.
    rewrite lookup_union_l by apply shim_macros_not_cplusplus. done. }
  rewrite (replaced_inert define_function MMoveTo_text s2).
  2:{ subst s2. cbn [defs with_defs]. rewrite Hd1.
      apply inert_in_union; [exact Hfun|reflexivity]. }
  2:{ change (length MMoveTo_text) with 31%nat. lia. }
  destruct (define_function_MMoveTo s2) as (Hd3 & Ht3 & Hf3 & Hg3).
  set (s3 := define_function MMoveTo_text s2) in *.
  rewrite Hc2 in Hg3. subst s2. cbn [defs text funs diags with_defs] in Hd3, Ht3, Hf3, Hg3.
  rewrite Hf1 in Hf3, Hg3. rewrite Hg1 in Hg3. rewrite Ht1 in Ht3.
  assert (Hc3 : defined "__cplusplus" s3 = defined "__cplusplus" pre).
  { rewrite <- Hc2. unfold defined. by rewrite Hd3. }
  clearbody s3. rewrite Hc3. unfold shim_text.
  destruct (defined "__cplusplus" pre).
  - rewrite replaced_inert by (done || cbn; lia). cbn [text funs diags emit].
    rewrite Ht3, Hf3, Hg3, <- !app_assoc. done.
  - rewrite Ht3, Hf3, Hg3, !app_nil_r. done.
Qed.
End FirstReadingText.

(** X2. Where no identifier of lines 15 and 54 to 58 names a macro when
    these lines are reached, the first reading contributes to the program
    text exactly the definition of [MMoveTo], wrapped in [extern "C" {]
    and [}] when [__cplusplus] is defined after the system headers and
    bare otherwise: the linkage block that line 15 opens is closed by
    line 61, since nothing in between defines [__cplusplus], and the text
    contributed has as many closing as opening braces. *)
Theorem extern_C_block_closed sys ho budget (st : pstate) :
  ho && bool_decide (file_name ∈ once st) = false →
  defined guard_name st = false →
  (length (shim_text true) < budget)%nat →
  inert_in (defs (prologue_state sys ho budget st)) (shim_text true) = true →
  let pre := prologue_state sys ho budget st in
  text (include_shim sys ho budget st) = text pre ++ shim_text (defined "__cplusplus" pre)
  ∧ count_punct LBrace (shim_text (defined "__cplusplus" pre))
    = count_punct RBrace (shim_text (defined "__cplusplus" pre)).
Proof.
  intros Hskip Hg Hlen Hin pre.
  destruct (include_shim_fields sys ho budget st Hskip Hg Hlen Hin) as (Ht & _).
  split; [exact Ht|]. by destruct (defined "__cplusplus" pre).
Qed.

Lemma extern_C_block_closed_witness :
  text (include_shim win32_header false 64 cplusplus_unit)
  = [Id "extern"; Str "C"; Punct LBrace] ++ MMoveTo_text ++ [Punct RBrace].
Proof.
  destruct (extern_C_block_closed win32_header false 64 cplusplus_unit) as [Ht _];
    [reflexivity|reflexivity|vm_compute; lia|by vm_compute|].
  etransitivity; [exact Ht|]. by vm_compute.
Defined.

(** X3. Unlike the macros, the function [MMoveTo] has no guard of its own.
    Where no identifier of its text names a macro: in a C translation unit
    that already defines a function [MMoveTo], the first reading of the
    header diagnoses a redefinition; in a translation unit that defines no
    function of that name, the header's own lines add the function and no
    diagnostic. *)
Theorem MMoveTo_not_guarded sys ho budget (st : pstate) :
  ho && bool_decide (file_name ∈ once st) = false →
  defined guard_name st = false →
  (length (shim_text true) < budget)%nat →
  inert_in (defs (prologue_state sys ho budget st)) (shim_text true) = true →
  let pre := prologue_state sys ho budget st in
  let fin := include_shim sys ho budget st in
  (defined "__cplusplus" pre = false → "MMoveTo" ∈ funs pre →
     diags fin = diags pre ++ [FunctionRedefined "MMoveTo"] ∧ funs fin = funs pre)
  ∧ ("MMoveTo" ∉ funs pre →
       diags fin = diags pre ∧ funs fin = {["MMoveTo"]} ∪ funs pre).
Proof.
  intros Hskip Hg Hlen Hin pre fin.
  destruct (include_shim_fields sys ho budget st Hskip Hg Hlen Hin) as (_ & Hf & Hd).
  fold pre fin in Hf, Hd. split.
  - intros Hc Hmem. rewrite Hd, Hf, Hc, !bool_decide_eq_true_2 by done. done.
  - intros Hmem. rewrite Hd, Hf, !bool_decide_eq_false_2 by done. done.
Qed.

Lemma MMoveTo_not_guarded_witness :
  diags (include_shim win32_header false 64 mmoveto_first)
  = [FunctionRedefined "MMoveTo"]
  ∧ diags (include_shim win32_header false 64 empty_state) = [].
Proof.
  split.
  - destruct (MMoveTo_not_guarded win32_header false 64 mmoveto_first) as [H _];
      [reflexivity|reflexivity|vm_compute; lia|by vm_compute|].
    destruct H as [Hd _]; [by vm_compute|by vm_compute|].
    etransitivity; [exact Hd|]. by vm_compute.
  - destruct (MMoveTo_not_guarded win32_header false 64 empty_state) as [_ H];
      [reflexivity|reflexivity|vm_compute; lia|by vm_compute|].
    destruct H as [Hd _]; [by vm_compute|].
    etransitivity; [exact Hd|]. by vm_compute.
Defined.
